(** * DevBench: a shallow embedding of [src/src/devbench.py]

    The span tree ([Process]), its begin/end protocol, the walks of
    [DevBench] ([running_process], [running_path]), the snapshot
    encoder / object hook, the shutdown countdown of [DevPrinter] and
    the duration formatter [time_str].

    Timestamps and durations (Python floats) are modelled as exact
    integers (clock ticks); every clock reading [time.time()] becomes an
    explicit argument [now]. *)

From Stdlib Require Import ZArith List String Ascii Bool Lia Permutation Sorted.
Import ListNotations.
Open Scope Z_scope.
Open Scope list_scope.

(* ------------------------------------------------------------------ *)
(** ** Names: Python's [str.lower] on ASCII text *)

Definition lower_char (a : ascii) : ascii :=
  let n := nat_of_ascii a in
  if (65 <=? n)%nat && (n <=? 90)%nat then ascii_of_nat (n + 32) else a.

Fixpoint lower (s : string) : string :=
  match s with
  | EmptyString => EmptyString
  | String a s' => String (lower_char a) (lower s')
  end.

(* ------------------------------------------------------------------ *)
(** ** [class Process] *)

Scheme All for list.

(** A span node.  [end_time = -1] is the sentinel of a running node.
    [parent] records whether the back-reference [self.parent] is set
    (not [None]); when it is set it refers to the node whose
    [children] list holds this one, which the tree shape records. *)
Inductive proc : Type := mkProc {
  name : string;
  begin_time : Z;
  end_time : Z;
  personal_time : Z;
  total_time : Z;
  children : list proc;
  parent : bool
}.

(** [Process.ended] *)
Definition ended (p : proc) : bool := negb (end_time p =? -1).

(** [Process(name, parent)]: the constructor reads the clock once. *)
Definition Process (nm : string) (has_parent : bool) (now : Z) : proc :=
  mkProc (lower nm) now (-1) 0 0 [] has_parent.

(** [Process._add_time] *)
Definition add_time (p : proc) (t : Z) : proc :=
  mkProc (name p) (begin_time p) (end_time p)
         (personal_time p + t) (total_time p + t) (children p) (parent p).

Definition set_end_time (p : proc) (t : Z) : proc :=
  mkProc (name p) (begin_time p) t (personal_time p) (total_time p)
         (children p) (parent p).

Definition set_children (p : proc) (cs : list proc) : proc :=
  mkProc (name p) (begin_time p) (end_time p) (personal_time p)
         (total_time p) cs (parent p).

(** [self.children.append(c)] *)
Definition append_child (p : proc) (c : proc) : proc :=
  set_children p (children p ++ [c]).

(** The three cases every method of [Process] distinguishes on
    [self.children]: empty, last child ended, last child running.  In
    the last case the list is [init ++ [c]] and [r] is the result of
    the call propagated to [c] (computed only in that case). *)
Inductive last_case (A : Type) : Type :=
| NoChildren : last_case A
| LastEnded : proc -> last_case A
| LastRunning : list proc -> proc -> A -> last_case A.
Arguments NoChildren {A}.
Arguments LastEnded {A} _.
Arguments LastRunning {A} _ _ _.

Fixpoint on_last {A : Type} (f : proc -> A) (cs : list proc) : last_case A :=
  match cs with
  | [] => NoChildren
  | c :: rest =>
      match rest with
      | [] => if ended c then LastEnded c else LastRunning [] c (f c)
      | _ :: _ =>
          match on_last f rest with
          | LastRunning init l r => LastRunning (c :: init) l r
          | x => x
          end
      end
  end.

(** [Process.begin]; [None] is the [RuntimeError] raised on an ended
    node. *)
Fixpoint begin (now : Z) (nm : string) (p : proc) {struct p} : option proc :=
  match p with
  | mkProc n b e pt tot cs par =>
      if ended p then None
      else
        match on_last (begin now nm) cs with
        | NoChildren =>
            let new_child := Process nm true now in
            Some (append_child (add_time p (begin_time new_child - b)) new_child)
        | LastEnded c =>
            let new_child := Process nm true now in
            Some (append_child (add_time p (begin_time new_child - end_time c))
                               new_child)
        | LastRunning init _ r =>
            match r with
            | Some c' => Some (mkProc n b e pt tot (init ++ [c']) par)
            | None => None
            end
        end
  end.

(** [Process.end] (named [end_], [end] being a keyword); returns the new
    node and the name of the span that closed. *)
Fixpoint end_ (now : Z) (p : proc) {struct p} : proc * string :=
  match p with
  | mkProc n b e pt tot cs par =>
      match on_last (end_ now) cs with
      | NoChildren =>
          (add_time (mkProc n b now pt tot cs par) (now - b), n)
      | LastEnded c =>
          (add_time (mkProc n b now pt tot cs par) (now - end_time c), n)
      | LastRunning init _ (last_child, ended_process) =>
          (mkProc n b e pt
             (if ended last_child then tot + total_time last_child else tot)
             (init ++ [last_child]) par,
           ended_process)
      end
  end.

(* ------------------------------------------------------------------ *)
(** ** [class DevBench]: the span tree controller

    The state of a [DevBench] is its [root]; the lock only serialises
    the calls and is not modelled. *)

(** [DevBench.__init__]: [self.root = Process('root', None)]. *)
Definition fresh (now : Z) : proc := Process "root" false now.

(** [DevBench.enter_process] *)
Definition enter_process (now : Z) (nm : string) (root : proc) : option proc :=
  begin now nm root.

(** [DevBench.leave_process] *)
Definition leave_process (now : Z) (root : proc) : proc * string :=
  end_ now root.

(** [DevBench.done] *)
Definition done (root : proc) : bool := ended root.

(** [DevBench.running_process]: follow the last child while it runs. *)
Fixpoint running_process (p : proc) : proc :=
  match p with
  | mkProc _ _ _ _ _ cs _ =>
      match on_last running_process cs with
      | LastRunning _ _ r => r
      | _ => p
      end
  end.

(** [DevBench.running_path]: the names met by the same walk, joined by
    ["."]. *)
Fixpoint running_path (p : proc) : string :=
  match p with
  | mkProc n _ _ _ _ cs _ =>
      n ++ match on_last running_path cs with
           | LastRunning _ _ s => "." ++ s
           | _ => ""
           end
  end.

(** The same walk, as the list of child indices it descends through. *)
Fixpoint active_idx (p : proc) : list nat :=
  match p with
  | mkProc _ _ _ _ _ cs _ =>
      match on_last active_idx cs with
      | LastRunning init _ r => List.length init :: r
      | _ => []
      end
  end.

(** Addressing a node by the child indices leading to it from the root.
    Children are never removed or reordered, so an address keeps naming
    the same node. *)
Fixpoint node_at (p : proc) (q : list nat) : option proc :=
  match q with
  | [] => Some p
  | i :: q' =>
      match nth_error (children p) i with
      | Some c => node_at c q'
      | None => None
      end
  end.

(** The names of the nodes along an address, from the root. *)
Fixpoint path_names (p : proc) (q : list nat) : list string :=
  name p :: match q with
            | [] => []
            | i :: q' =>
                match nth_error (children p) i with
                | Some c => path_names c q'
                | None => []
                end
            end.

(* ------------------------------------------------------------------ *)
(** ** Snapshots: [ProcessEncoder] and [Process._json_object_hook]

    A JSON object written by the encoder; the object itself stands for
    the text in [bench.json].  This is exact for names made of ASCII
    characters: [json.load] gives such a name back as a unicode string
    equal to the saved byte string (it hashes, compares, lowers and is
    joined in a [StringIO] like it).  For other names Python 2 behaves
    differently, and this is not modelled: [json.dump] decodes a byte
    string name as UTF-8 and raises on invalid UTF-8, [json.load] gives
    back a unicode string that differs from the saved bytes, and such
    loaded names make [StringIO.getvalue] raise once non-ASCII byte
    strings are written beside them.  Statements about states reached
    through a load therefore assume [names_ascii]. *)
Inductive json_obj : Type :=
| JObj (name : string) (begin_time end_time personal_time total_time : Z)
       (children : list json_obj).

(** [ProcessEncoder.default] *)
Fixpoint default (p : proc) : json_obj :=
  match p with
  | mkProc n b e pt tot cs _ => JObj n b e pt tot (map default cs)
  end.

Definition set_parent (p : proc) (v : bool) : proc :=
  mkProc (name p) (begin_time p) (end_time p) (personal_time p)
         (total_time p) (children p) v.

(** [Process._json_object_hook], called on a dictionary whose
    ['children'] have already been turned into processes. *)
Definition json_object_hook (n : string) (b e pt tot : Z) (kids : list proc)
  : proc :=
  let proc0 := mkProc n b e pt tot (map (fun child => set_parent child true) kids)
                      false in
  if String.eqb n "root" then set_parent (set_end_time proc0 (-1)) false
  else proc0.

(** [json.load(file, object_hook=...)]: the hook is applied bottom-up,
    innermost objects first. *)
Fixpoint load_obj (j : json_obj) : proc :=
  match j with
  | JObj n b e pt tot cs => json_object_hook n b e pt tot (map load_obj cs)
  end.

(** [DevBench.savef] *)
Definition savef (root : proc) : json_obj := default root.

(** [DevBench.loadf]: the loaded object becomes the new root. *)
Definition loadf (j : json_obj) : proc := load_obj j.

(** A string of ASCII characters only (codes below 128). *)
Definition is_ascii_str (s : string) : bool :=
  forallb (fun a => (nat_of_ascii a <? 128)%nat) (list_ascii_of_string s).

(** Every name in the tree is an ASCII string: the domain on which the
    JSON snapshot above is exact. *)
Fixpoint names_ascii (p : proc) : bool :=
  match p with
  | mkProc n _ _ _ _ cs _ => is_ascii_str n && forallb names_ascii cs
  end.

(* ------------------------------------------------------------------ *)
(** ** Reachable states of a [DevBench]

    [may_load t] tells whether a snapshot saved in state [t] may be
    loaded back. *)
Inductive reach (may_load : proc -> bool) : proc -> Prop :=
| reach_fresh now : reach may_load (fresh now)
| reach_enter t now nm t' :
    reach may_load t -> enter_process now nm t = Some t' -> reach may_load t'
| reach_leave t now :
    reach may_load t -> reach may_load (fst (leave_process now t))
| reach_load t :
    reach may_load t -> may_load t = true -> reach may_load (loadf (savef t)).

(** States reached through [enter_process] / [leave_process] alone. *)
Definition reachable : proc -> Prop := reach (fun _ => false).

(** Sequences of calls, as issued by the command loop. *)
Inductive op : Type :=
| Enter (now : Z) (nm : string)
| Leave (now : Z).

Fixpoint run_ops (root : proc) (ops : list op) : option proc :=
  match ops with
  | [] => Some root
  | Enter now nm :: rest =>
      match enter_process now nm root with
      | Some root' => run_ops root' rest
      | None => None
      end
  | Leave now :: rest => run_ops (fst (leave_process now root)) rest
  end.

(** "Never leave more times than entered": [depth] counts the enters
    not yet matched by a leave. *)
Fixpoint leaves_ok (depth : Z) (ops : list op) : bool :=
  match ops with
  | [] => true
  | Enter _ _ :: rest => leaves_ok (depth + 1) rest
  | Leave _ :: rest => (1 <=? depth) && leaves_ok (depth - 1) rest
  end.

(* ------------------------------------------------------------------ *)
(** ** [class DevPrinter]: the shutdown countdown

    The printer's state is its [engaged_count] ([-1] until armed). *)

Definition printer_init : Z := -1.

(** [DevPrinter.terminate] *)
Definition terminate (engaged_count : Z) : Z := 2.

(** [DevPrinter.can_loop]: the answer and the new [engaged_count]. *)
Definition can_loop (engaged_count : Z) : bool * Z :=
  if engaged_count =? -1 then (true, engaged_count)
  else let engaged_count := engaged_count - 1 in (0 <? engaged_count, engaged_count).

(** [DevPrinter.run], for at most [fuel] queries of the loop condition;
    [flushes] counts the iterations of the body (one report and one
    snapshot written each). *)
Fixpoint run (fuel : nat) (engaged_count : Z) (flushes : nat) : Z * nat :=
  match fuel with
  | O => (engaged_count, flushes)
  | S fuel' =>
      match can_loop engaged_count with
      | (true, c) => run fuel' c (S flushes)
      | (false, c) => (c, flushes)
      end
  end.

(* ------------------------------------------------------------------ *)
(** ** [time_str]

    Durations are given in hundredths of a second, so that ['%.2f']
    prints them exactly; [int()] truncates toward zero ([Z.quot]) and
    Python 2's [/] on integers is floor division ([Z.div]). *)

Fixpoint digits_of (fuel : nat) (n : Z) (acc : string) : string :=
  match fuel with
  | O => acc
  | S fuel' =>
      let acc' := String (ascii_of_nat (48 + Z.to_nat (n mod 10))) acc in
      if n <? 10 then acc' else digits_of fuel' (n / 10) acc'
  end.

Definition show_nonneg (n : Z) : string :=
  digits_of (S (Z.to_nat (Z.log2 n))) n ""%string.

(** ['%d' % n] *)
Definition fmt_d (n : Z) : string :=
  if n <? 0 then ("-" ++ show_nonneg (- n))%string else show_nonneg n.

(** ['%.2f' % (cs / 100)] *)
Definition fmt_2f (cs : Z) : string :=
  let a := Z.abs cs in
  let frac := a mod 100 in
  let sign := if cs <? 0 then "-"%string else ""%string in
  let pad := if frac <? 10 then "0"%string else ""%string in
  (sign ++ show_nonneg (a / 100) ++ "." ++ pad ++ show_nonneg frac)%string.

Definition time_str (time_s : Z) : string :=
  let sec_i := Z.quot time_s 100 in
  let rv :=
    if 60 <=? sec_i then
      let min_i := sec_i / 60 in
      let sec_i := sec_i - min_i * 60 in
      let time_s := time_s - min_i * 60 * 100 in
      if 60 <=? min_i then
        let hr_i := min_i / 60 in
        let min_i := min_i - hr_i * 60 in
        if 24 <=? hr_i then
          let day_i := hr_i / 24 in
          let hr_i := hr_i - day_i * 24 in
          (fmt_d day_i ++ " d, " ++ fmt_d hr_i ++ " h, " ++ fmt_d min_i
           ++ " m, " ++ fmt_2f time_s ++ " s")%string
        else
          (fmt_d hr_i ++ " h, " ++ fmt_d min_i ++ " m, " ++ fmt_2f time_s ++ " s")%string
      else
        (fmt_d min_i ++ " m, " ++ fmt_2f time_s ++ " s")%string
    else
      (fmt_2f time_s ++ " s")%string
  in
  ("[" ++ rv ++ "]")%string.

(** The Duration Formatter as the spec words it (section 4.4): choose the
    bracket, then take each unit by floor division and remainder from the
    largest unit of that bracket downward. *)
Definition format_spec (cs : Z) : string :=
  let rv :=
    if cs <? 6000 then (fmt_2f cs ++ " s")%string
    else if cs <? 360000 then
      let m := cs / 6000 in
      let s := cs - 6000 * m in
      (fmt_d m ++ " m, " ++ fmt_2f s ++ " s")%string
    else if cs <? 8640000 then
      let h := cs / 360000 in
      let x := cs - 360000 * h in
      let m := x / 6000 in
      let s := x - 6000 * m in
      (fmt_d h ++ " h, " ++ fmt_d m ++ " m, " ++ fmt_2f s ++ " s")%string
    else
      let d := cs / 8640000 in
      let x := cs - 8640000 * d in
      let h := x / 360000 in
      let x' := x - 360000 * h in
      let m := x' / 6000 in
      let s := x' - 6000 * m in
      (fmt_d d ++ " d, " ++ fmt_d h ++ " h, " ++ fmt_d m ++ " m, "
       ++ fmt_2f s ++ " s")%string
  in
  ("[" ++ rv ++ "]")%string.

(* ------------------------------------------------------------------ *)
(** ** Invariants used in the statements *)

Definition sum_Z (l : list Z) : Z := fold_right Z.add 0 l.

(** What an (ended) child contributes to its parent's [total_time]. *)
Definition ended_total (c : proc) : Z := if ended c then total_time c else 0.

(** [total_time == personal_time + sum of total_time of ended children],
    at every node. *)
Fixpoint time_inv (p : proc) : bool :=
  match p with
  | mkProc _ _ _ pt tot cs _ =>
      (tot =? pt + sum_Z (map ended_total cs)) && forallb time_inv cs
  end.

(** Sum of [personal_time] over all nodes, in pre-order. *)
Fixpoint sum_personal (p : proc) : Z :=
  match p with
  | mkProc _ _ _ pt _ cs _ => pt + sum_Z (map sum_personal cs)
  end.

(** Every node of the subtree has ended. *)
Fixpoint all_ended (p : proc) : bool :=
  match p with
  | mkProc _ _ _ _ _ cs _ => ended p && forallb all_ended cs
  end.

(** The open nodes lie on one chain: every child but the last has
    ended with its whole subtree, and below an ended node everything
    has ended. *)
Fixpoint chain_wf (p : proc) : bool :=
  match p with
  | mkProc _ _ _ _ _ cs _ =>
      forallb chain_wf cs && forallb all_ended (removelast cs)
      && (if ended p then forallb all_ended cs else true)
  end.

(** Parent back-references as [Process(name, self)] sets them: unset
    at the top, set on every child. *)
Fixpoint parents_ok_below (p : proc) : bool :=
  match p with
  | mkProc _ _ _ _ _ cs _ =>
      forallb (fun c => parent c && parents_ok_below c) cs
  end.

Definition parents_ok (p : proc) : bool := negb (parent p) && parents_ok_below p.

(** Every node named ["root"] with its [end_time] reset to [-1]. *)
Fixpoint reopen_named_root (p : proc) : proc :=
  match p with
  | mkProc n b e pt tot cs par =>
      mkProc n b (if String.eqb n "root" then -1 else e) pt tot
             (map reopen_named_root cs) par
  end.

(** No node below the top is named ["root"]. *)
Fixpoint no_inner_root (p : proc) : bool :=
  match p with
  | mkProc _ _ _ _ _ cs _ =>
      forallb (fun c => negb (String.eqb (name c) "root") && no_inner_root c) cs
  end.

(** The walk of [running_path], node by node: each step goes to the
    last child, which is running, and the walk stops at a node with no
    children or an ended last child. *)
Fixpoint chain_along (p : proc) (q : list nat) : Prop :=
  match q with
  | [] => on_last (fun _ => tt) (children p) = NoChildren
          \/ exists c, on_last (fun _ => tt) (children p) = LastEnded c
  | i :: q' =>
      exists init c, children p = init ++ [c] /\ ended c = false
                     /\ i = List.length init /\ chain_along c q'
  end.

(** Fields of a node other than its children, and its number of
    children (the list holds the same child objects). *)
Definition fields (p : proc) : string * Z * Z * Z * Z * nat :=
  (name p, begin_time p, end_time p, personal_time p, total_time p,
   List.length (children p)).

(** The clock reading a new child's gap is measured from: the node's own
    [begin_time], or the [end_time] of its last child. *)
Definition prev_marker (p : proc) : Z :=
  match on_last (fun _ => tt) (children p) with
  | LastEnded c => end_time c
  | LastRunning _ c _ => end_time c
  | NoChildren => begin_time p
  end.

(* ------------------------------------------------------------------ *)
(** ** Sample sessions *)

Definition state_after (ops : list op) : proc :=
  match run_ops (fresh 0) ops with
  | Some t => t
  | None => fresh 0
  end.

(** enter "a", enter "b", leave: "a" still runs below the root. *)
Definition nested_ops : list op := [Enter 1 "a"; Enter 5 "b"; Leave 7].

(** enter "a", enter "b": two spans open below the root. *)
Definition open_ops : list op := [Enter 1 "a"; Enter 5 "b"].

(** enter "a", leave: every span below the root has ended. *)
Definition drained_ops : list op := [Enter 1 "a"; Leave 4].

(** A span the user named "root", ended. *)
Definition user_root_ops : list op := [Enter 1 "ROOT"; Leave 2].

(** A span the user named "root", ended, then a running sibling. *)
Definition user_root_sibling_ops : list op := [Enter 1 "root"; Leave 2; Enter 3 "x"].

(** enter "a", leave, leave: the session is drained, the root ended. *)
Definition finished_ops : list op := [Enter 1 "a"; Leave 4; Leave 6].

(* ------------------------------------------------------------------ *)
(** ** [DevBench.report_str]: the pre-order listing

    The walk keeps, for the current node, the chain of its ancestors as
    frames [Frame par i]: [par] is the node [proc.parent] refers to and
    [i] the position [proc.parent.children.index(proc)] of the current
    node (or of the ancestor below) in [par]'s children.  The walk
    starts at the root, whose [parent] is [None]; an empty chain with
    the [parent] flag set does not arise from it and ends the walk. *)
Record frame : Type := Frame { fr_parent : proc; fr_index : nat }.

(** The inner [while proc.parent] loop: move to the next sibling, or up
    one level ([depth -= 1]) and try again; [None] once a node without
    parent is reached ([proc = None]). *)
Fixpoint ascend (p : proc) (ctx : list frame) (depth : Z)
  : option (proc * list frame * Z) :=
  if parent p then
    match ctx with
    | [] => None
    | Frame par i :: ctx' =>
        let index := S i in
        match nth_error (children par) index with
        | Some sib => Some (sib, Frame par index :: ctx', depth)
        | None => ascend par ctx' (depth - 1)
        end
    end
  else None.

(** One step of the outer loop after the line of [p] is written:
    descend to the first child, or ascend. *)
Definition report_next (p : proc) (ctx : list frame) (depth : Z)
  : option (proc * list frame * Z) :=
  match children p with
  | c :: _ => Some (c, Frame p 0 :: ctx, depth + 1)
  | [] => ascend p ctx depth
  end.

(** The outer [while proc] loop, for at most [fuel] iterations: the
    depth and node of every line written. *)
Fixpoint report_walk (fuel : nat) (p : proc) (ctx : list frame) (depth : Z)
  : list (Z * proc) :=
  match fuel with
  | O => []
  | S fuel' =>
      (depth, p) :: match report_next p ctx depth with
                    | Some (p', ctx', depth') => report_walk fuel' p' ctx' depth'
                    | None => []
                    end
  end.

(** The number of nodes of a tree, the number of iterations the walk
    is given. *)
Fixpoint count_nodes (p : proc) : nat :=
  match p with
  | mkProc _ _ _ _ _ cs _ => S (list_sum (map count_nodes cs))
  end.

Definition report_visits (root : proc) : list (Z * proc) :=
  report_walk (count_nodes root) root [] 0.

(** The nodes of a tree in pre-order, each with its depth below the
    root. *)
Fixpoint preorder (depth : Z) (p : proc) : list (Z * proc) :=
  match p with
  | mkProc _ _ _ _ _ cs _ => (depth, p) :: flat_map (preorder (depth + 1)) cs
  end.

Definition nl : string := String (ascii_of_nat 10) EmptyString.

Fixpoint str_repeat (n : nat) (s : string) : string :=
  match n with
  | O => EmptyString
  | S n' => (s ++ str_repeat n' s)%string
  end.

(** The line [report_str] writes for a node at a depth. *)
Definition report_line (dp : Z * proc) : string :=
  let (depth, proc0) := dp in
  (str_repeat (Z.to_nat depth) "  " ++ name proc0
   ++ (if negb (ended proc0) then " (Running... personal: "
       else " (Ended personal: ")
   ++ time_str (personal_time proc0) ++ ", total: "
   ++ time_str (total_time proc0) ++ "):" ++ nl)%string.

(** The listing part of [report_str]. *)
Definition report_listing (root : proc) : string :=
  String.concat ""%string (map report_line (report_visits root)).

(* ------------------------------------------------------------------ *)
(** ** [report_str]: the groups by name

    [avgs] maps a name to the list of nodes met with that name, in the
    order the walk meets them; the dictionary is an association list
    (its order is irrelevant, the table is sorted afterwards). *)
Fixpoint avgs_add (avgs : list (string * list proc)) (proc0 : proc)
  : list (string * list proc) :=
  match avgs with
  | [] => [(name proc0, [proc0])]
  | (k, v) :: rest =>
      if String.eqb k (name proc0) then (k, v ++ [proc0]) :: rest
      else (k, v) :: avgs_add rest proc0
  end.

Definition report_avgs (root : proc) : list (string * list proc) :=
  fold_left avgs_add (map snd (report_visits root)) [].

(** [avgs[k] = (total_ptime, total_ttime, ..., num_procs)]: the sums
    and the count; the two averages ([total / num_procs], float
    divisions) and their rendering are not modelled. *)
Definition summarize (kv : string * list proc) : string * (Z * Z * nat) :=
  let (k, v) := kv in
  (k, (sum_Z (map personal_time v), sum_Z (map total_time v), List.length v)).

(** [sorted(avgs.items())]: the keys are distinct, so the order of the
    pairs is the order of their keys. *)
Fixpoint insert_item {A : Type} (x : string * A) (l : list (string * A))
  : list (string * A) :=
  match l with
  | [] => [x]
  | y :: l' => if String.leb (fst x) (fst y) then x :: l else y :: insert_item x l'
  end.

Fixpoint sort_items {A : Type} (l : list (string * A)) : list (string * A) :=
  match l with
  | [] => []
  | x :: l' => insert_item x (sort_items l')
  end.

(** The table written under ["Processes By Name:"] once the root has
    ended. *)
Definition report_by_name (root : proc) : list (string * (Z * Z * nat)) :=
  sort_items (map summarize (report_avgs root)).

Fixpoint assoc {A : Type} (k : string) (l : list (string * A)) : option A :=
  match l with
  | [] => None
  | (k', v) :: rest => if String.eqb k' k then Some v else assoc k rest
  end.

(** The nodes of a tree in pre-order. *)
Definition nodes (root : proc) : list proc := map snd (preorder 0 root).

(* ------------------------------------------------------------------ *)
(** ** [main]: the command loop and the shutdown drain *)

Definition EXIT_WORDS : list string := ["q"; "quit"; "exit"; "abort"]%string.

Inductive command : Type :=
| CmdExit
| CmdEnter (nm : string)
| CmdLeave
| CmdUnrecognized.

(** The dispatch on a line read from the prompt. *)
Definition classify (raw : string) : command :=
  let cmd := lower raw in
  if existsb (String.eqb cmd) EXIT_WORDS then CmdExit
  else if negb (String.prefix "<"%string cmd) && (0 <? String.length cmd)%nat
  then CmdEnter cmd
  else if String.prefix "<"%string cmd then CmdLeave
  else CmdUnrecognized.

(** The [while engaged] loop over the lines typed, each with the clock
    reading of the call it makes; the result is the tree and whether
    the loop is still engaged when the lines run out.  [None] is an
    exception raised by [enter_process].  When the lines typed so far
    run out while the loop is engaged, [main] waits in [raw_input] for
    the next one (or raises [EOFError] at the end of the input).  The
    prompt [bench.running_path()] shown before each line only reads the
    tree; it raises only when names loaded as unicode strings meet
    non-ASCII names typed after the load (see the snapshot section),
    and is not modelled: statements about the loop after a load assume
    ASCII names. *)
Fixpoint session (inputs : list (string * Z)) (root : proc) : option (proc * bool) :=
  match inputs with
  | [] => Some (root, true)
  | (raw, now) :: rest =>
      match classify raw with
      | CmdExit => Some (root, false)
      | CmdEnter nm =>
          match enter_process now nm root with
          | Some root' => session rest root'
          | None => None
          end
      | CmdLeave =>
          let root' := fst (leave_process now root) in
          if ended root' then Some (root', false) else session rest root'
      | CmdUnrecognized => session rest root
      end
  end.

(** [while not bench.done(): bench.leave_process()], with one clock
    reading per call; [None] when the readings given run out first. *)
Fixpoint drain (nows : list Z) (root : proc) : option proc :=
  if done root then Some root
  else
    match nows with
    | [] => None
    | now :: rest => drain rest (fst (leave_process now root))
    end.


(* ------------------------------------------------------------------ *)
(** ** Wall-clock accounting *)

(** The clock reading up to which an open node's time is accounted:
    its own [begin_time], the [end_time] of its ended last child, or the
    [begin_time] of its running last child. *)
Definition open_marker (p : proc) : Z :=
  match on_last (fun _ => tt) (children p) with
  | NoChildren => begin_time p
  | LastEnded c => end_time c
  | LastRunning _ c _ => begin_time c
  end.

(** An ended node's [total_time] is its wall-clock span
    [end_time - begin_time]; an open node's is the span up to its
    marker. *)
Fixpoint clock_inv (p : proc) : bool :=
  match p with
  | mkProc _ b e _ tot cs _ =>
      (if ended p then tot =? e - b else tot =? open_marker p - b)
      && forallb clock_inv cs
  end.

(** Every name in the tree is lower case. *)
Fixpoint names_lower (p : proc) : bool :=
  match p with
  | mkProc n _ _ _ _ cs _ => String.eqb (lower n) n && forallb names_lower cs
  end.

(** An ended node does not have a running last child. *)
Definition ended_last_ended (p : proc) : bool :=
  if ended p then
    match on_last (fun _ => tt) (children p) with
    | LastRunning _ _ _ => false
    | _ => true
    end
  else true.

(** The rest of the walk once [ascend] has answered. *)
Definition walk_cont (fuel : nat) (o : option (proc * list frame * Z))
  : list (Z * proc) :=
  match o with
  | Some (p', ctx', d') => report_walk fuel p' ctx' d'
  | None => []
  end.

(** A group of the table after more nodes of its name are appended. *)
Definition merge_found (o : option (list proc)) (l : list proc) : option (list proc) :=
  match o, l with
  | None, [] => None
  | None, _ => Some l
  | Some v, _ => Some (v ++ l)
  end.

(** Adjacent items of [sorted(avgs.items())] are in key order. *)
Definition item_le {A : Type} (a b : string * A) : Prop :=
  String.leb (fst a) (fst b) = true.

(* ------------------------------------------------------------------ *)
(** ** Structural lemmas *)

(** Induction on a span tree with the hypothesis on every child. *)
Lemma proc_rect_In (P : proc -> Prop) :
  (forall n b e pt tot cs par,
      (forall c, In c cs -> P c) -> P (mkProc n b e pt tot cs par)) ->
  forall p, P p.
Proof.
  intros H.
  refine (fix IH (p : proc) : P p :=
            match p with
            | mkProc n b e pt tot cs par =>
                H n b e pt tot cs par
                  ((fix go (l : list proc) : forall c, In c l -> P c :=
                      match l with
                      | [] => fun c Hin => False_ind _ Hin
                      | x :: l' => fun c Hin =>
                          match Hin with
                          | or_introl E => eq_ind x P (IH x) c E
                          | or_intror Hin' => go l' c Hin'
                          end
                      end) cs)
            end).
Qed.

Lemma on_last_snoc {A : Type} (f : proc -> A) (init : list proc) (c : proc) :
  on_last f (init ++ [c]) = if ended c then LastEnded c else LastRunning init c (f c).
Proof.
  induction init as [|a init IH]; simpl; [reflexivity|].
  destruct (init ++ [c]) as [|x l] eqn:E.
  - destruct init; discriminate.
  - rewrite IH. destruct (ended c); reflexivity.
Qed.

Lemma snoc_cases (cs : list proc) : cs = [] \/ exists init c, cs = init ++ [c].
Proof.
  destruct cs as [|x l]; [now left|right].
  destruct (exists_last (l := x :: l)) as (init & c & E); [discriminate|].
  eauto.
Qed.

Lemma In_snoc_last (init : list proc) (c : proc) : In c (init ++ [c]).
Proof. apply in_or_app. right. now left. Qed.

Lemma sum_Z_app (l1 l2 : list Z) : sum_Z (l1 ++ l2) = sum_Z l1 + sum_Z l2.
Proof. induction l1 as [|x l1 IH]; simpl; lia. Qed.

Lemma sum_Z_snoc (l : list Z) (x : Z) : sum_Z (l ++ [x]) = sum_Z l + x.
Proof. rewrite sum_Z_app. simpl. lia. Qed.

Lemma ended_false (p : proc) : ended p = false <-> end_time p = -1.
Proof. unfold ended. rewrite negb_false_iff. apply Z.eqb_eq. Qed.

(** Destruct the children list of a node into the three cases of
    [on_last]. *)
Ltac case_children cs :=
  let init := fresh "init" in
  let c := fresh "c" in
  let Ec := fresh "Ec" in
  destruct (snoc_cases cs) as [->|(init & c & ->)];
  [|rewrite ?on_last_snoc in *; destruct (ended c) eqn:Ec].

(** [begin] either fails on an ended node or leaves the node running
    with its [end_time]. *)
Lemma begin_end_time (now : Z) (nm : string) (p p' : proc) :
  begin now nm p = Some p' -> ended p = false /\ end_time p' = end_time p.
Proof.
  destruct p as [n b e pt tot cs par]. simpl.
  destruct (ended _) eqn:He; [discriminate|].
  case_children cs; simpl.
  - intros [= <-]. simpl. auto.
  - intros [= <-]. simpl. auto.
  - destruct (begin now nm c); [intros [= <-]|discriminate]. simpl. auto.
Qed.

Ltac in_snoc H :=
  let H' := fresh "Hin" in
  apply in_app_or in H as [H'|H'];
  [|simpl in H'; destruct H' as [<-|[]]].

Lemma time_inv_mk n b e pt tot cs par :
  time_inv (mkProc n b e pt tot cs par) = true <->
  tot = pt + sum_Z (map ended_total cs) /\ (forall c, In c cs -> time_inv c = true).
Proof.
  simpl. rewrite andb_true_iff, Z.eqb_eq, forallb_forall. tauto.
Qed.

Lemma Process_ended (nm : string) (par : bool) (now : Z) :
  ended (Process nm par now) = false.
Proof. reflexivity. Qed.

Lemma begin_time_inv (now : Z) (nm : string) (p p' : proc) :
  begin now nm p = Some p' -> time_inv p = true -> time_inv p' = true.
Proof.
  revert p'.
  induction p as [n b e pt tot cs par IH] using proc_rect_In; intros p' Hb.
  simpl in Hb. destruct (ended _) eqn:He; [discriminate|].
  rewrite time_inv_mk. intros [Heq Hall].
  case_children cs; simpl in Hb.
  - injection Hb as <-. apply time_inv_mk. split; [simpl in *; lia|].
    simpl. intros x [<-|[]]. reflexivity.
  - injection Hb as <-. apply time_inv_mk. split.
    + simpl in *. rewrite !map_app, !sum_Z_app in *. simpl in *.
      unfold ended_total in *. rewrite Ec in *. simpl in *. lia.
    + simpl. intros x Hx. in_snoc Hx; [apply Hall; exact Hin|reflexivity].
  - destruct (begin now nm c) as [c'|] eqn:Hc; [|discriminate].
    injection Hb as <-. destruct (begin_end_time _ _ _ _ Hc) as [_ Hend].
    apply time_inv_mk. split.
    + assert (Ec' : ended c' = false)
        by (apply ended_false; rewrite Hend; apply ended_false; exact Ec).
      rewrite !map_app, !sum_Z_app in *. simpl in *.
      unfold ended_total in *. rewrite Ec, Ec' in *. lia.
    + intros x Hx. in_snoc Hx.
      * apply Hall. apply in_or_app. now left.
      * apply (IH c (In_snoc_last _ _) c' Hc). apply Hall, In_snoc_last.
Qed.

Lemma end_time_inv (now : Z) (p : proc) :
  time_inv p = true -> time_inv (fst (end_ now p)) = true.
Proof.
  induction p as [n b e pt tot cs par IH] using proc_rect_In.
  rewrite time_inv_mk. intros [Heq Hall].
  cbn [end_]. case_children cs; cbn [fst].
  - apply time_inv_mk. split; [simpl in *; lia|intros x []].
  - apply time_inv_mk. split; [simpl in *; lia|exact Hall].
  - destruct (end_ now c) as [c' nm'] eqn:Hc. cbn [fst].
    assert (Hc' : time_inv c' = true).
    { change c' with (fst (c', nm')). rewrite <- Hc.
      apply IH; [apply In_snoc_last|apply Hall, In_snoc_last]. }
    apply time_inv_mk. split.
    + rewrite !map_app, !sum_Z_app in *. simpl in *.
      unfold ended_total in *. rewrite Ec in *. destruct (ended c'); lia.
    + intros x Hx. in_snoc Hx; [apply Hall, in_or_app; now left|exact Hc'].
Qed.

Lemma run_ops_reach (m : proc -> bool) (t t' : proc) (ops : list op) :
  run_ops t ops = Some t' -> reach m t -> reach m t'.
Proof.
  revert t. induction ops as [|[now nm|now] ops IH]; simpl; intros t Hr Ht.
  - injection Hr as <-. exact Ht.
  - destruct (enter_process now nm t) as [t1|] eqn:E; [|discriminate].
    apply (IH t1 Hr). apply (reach_enter m t now nm t1 Ht E).
  - apply (IH _ Hr). apply reach_leave. exact Ht.
Qed.

Lemma reachable_time_inv (t : proc) : reachable t -> time_inv t = true.
Proof.
  induction 1 as [now|t now nm t' _ IH E|t now _ IH|t _ _ Hm].
  - reflexivity.
  - apply (begin_time_inv now nm t t' E IH).
  - apply end_time_inv. exact IH.
  - discriminate.
Qed.

Lemma begin_total (now : Z) (nm : string) (p : proc) :
  ended p = false -> exists p', begin now nm p = Some p'.
Proof.
  induction p as [n b e pt tot cs par IH] using proc_rect_In; intros He.
  cbn [begin]. rewrite He.
  case_children cs; simpl; [eauto|eauto|].
  destruct (IH c (In_snoc_last _ _) Ec) as [c' Hc]. rewrite Hc. eauto.
Qed.

Lemma nth_error_snoc_len (init : list proc) (x : proc) :
  nth_error (init ++ [x]) (List.length init) = Some x.
Proof. rewrite nth_error_app2, Nat.sub_diag by lia. reflexivity. Qed.

Lemma nth_error_snoc_other (init : list proc) (x y : proc) (i : nat) :
  i <> List.length init -> nth_error (init ++ [x]) i = nth_error (init ++ [y]) i.
Proof.
  intros Hi. destruct (Nat.lt_ge_cases i (List.length init)) as [Hlt|Hge].
  - rewrite !nth_error_app1 by exact Hlt. reflexivity.
  - rewrite !nth_error_app2 by exact Hge.
    destruct (i - List.length init)%nat as [|k] eqn:Ek; [lia|].
    simpl. now rewrite !nth_error_nil.
Qed.

Lemma nth_error_snoc_beyond (l : list proc) (x : proc) (i : nat) :
  (List.length l < i)%nat -> nth_error (l ++ [x]) i = None.
Proof.
  intros Hi. apply nth_error_None. rewrite length_app. simpl. lia.
Qed.

Lemma node_at_no_children (p : proc) (r : list nat) :
  children p = [] -> r <> [] -> node_at p r = None.
Proof.
  intros Hc Hr. destruct r as [|i r]; [congruence|]. simpl. rewrite Hc.
  now rewrite nth_error_nil.
Qed.

Lemma active_idx_snoc (n : string) (b e pt tot : Z) (init : list proc)
  (c : proc) (par : bool) :
  active_idx (mkProc n b e pt tot (init ++ [c]) par)
  = if ended c then [] else List.length init :: active_idx c.
Proof. cbn [active_idx]. rewrite on_last_snoc. now destruct (ended c). Qed.

(** The frame of [begin]: the node at the end of the active path gets
    the new child and the gap, every other address keeps its fields. *)
Lemma begin_frame (now : Z) (nm : string) (t t' : proc) :
  begin now nm t = Some t' ->
  let q := active_idx t in
  exists n n',
    node_at t q = Some n /\ node_at t' q = Some n' /\
    children n' = children n ++ [Process nm true now] /\
    personal_time n' = personal_time n + (now - prev_marker n) /\
    total_time n' = total_time n + (now - prev_marker n) /\
    name n' = name n /\ begin_time n' = begin_time n /\
    end_time n' = end_time n /\ parent n' = parent n /\
    (forall q', q' <> q -> q' <> q ++ [List.length (children n)] ->
       option_map fields (node_at t' q') = option_map fields (node_at t q')).
Proof.
  revert t'.
  induction t as [n b e pt tot cs par IH] using proc_rect_In; intros t' Hb.
  cbn [begin] in Hb. destruct (ended _) eqn:He; [discriminate|].
  case_children cs; cbn iota beta zeta in Hb.
  - injection Hb as <-. cbn [active_idx on_last].
    eexists _, _. split; [reflexivity|]. split; [reflexivity|].
    cbn. repeat split.
    intros [|i r] H1 H2; [congruence|]. simpl.
    destruct i as [|i]; simpl; [|now rewrite !nth_error_nil].
    destruct r as [|j r]; [congruence|]. simpl. now rewrite !nth_error_nil.
  - injection Hb as <-. rewrite active_idx_snoc, Ec.
    eexists _, _. split; [reflexivity|]. split; [reflexivity|].
    unfold prev_marker. cbn [children]. rewrite on_last_snoc, Ec.
    cbn. repeat split.
    intros [|i r] H1 H2; [congruence|].
    cbn [node_at append_child set_children add_time children].
    destruct (Nat.lt_trichotomy i (List.length (init ++ [c])))
      as [Hlt|[->|Hgt]].
    + rewrite (nth_error_app1 _ _ Hlt). reflexivity.
    + rewrite nth_error_snoc_len.
      rewrite (proj2 (nth_error_None _ _)) by lia.
      rewrite node_at_no_children; [reflexivity|reflexivity|].
      intros ->. apply H2. reflexivity.
    + rewrite nth_error_snoc_beyond by exact Hgt.
      rewrite (proj2 (nth_error_None _ _)) by lia. reflexivity.
  - destruct (begin now nm c) as [c'|] eqn:Hc; [|discriminate].
    injection Hb as <-. rewrite active_idx_snoc, Ec.
    destruct (IH c (In_snoc_last _ _) c' Hc)
      as (m & m' & Hm & Hm' & Hch & Hpt & Htt & Hn & Hbt & Het & Hpa & Hrest).
    cbn zeta. exists m, m'.
    cbn [node_at children]. rewrite !nth_error_snoc_len.
    repeat (split; [assumption|]).
    intros [|i r] H1 H2.
    + unfold fields. cbn [option_map node_at name begin_time end_time
        personal_time total_time children]. now rewrite !length_app.
    + cbn [node_at children].
      destruct (Nat.eq_dec i (List.length init)) as [->|Hi].
      * rewrite !nth_error_snoc_len. apply Hrest.
        -- intros ->. apply H1. reflexivity.
        -- intros ->. apply H2. reflexivity.
      * rewrite (nth_error_snoc_other init c' c i Hi). reflexivity.
Qed.

Lemma node_at_snoc_len (n : string) (b e pt tot : Z) (init : list proc)
  (c : proc) (par : bool) (r : list nat) :
  node_at (mkProc n b e pt tot (init ++ [c]) par) (List.length init :: r)
  = node_at c r.
Proof. cbn [node_at children]. now rewrite nth_error_snoc_len. Qed.

(** The frame of [end_]: the node at the end of the active path is
    closed, no other [end_time] moves, and its parent absorbs its final
    [total_time]. *)
Lemma end_frame (now : Z) (t : proc) :
  now <> -1 ->
  let q := active_idx t in
  let t' := fst (end_ now t) in
  (exists n, node_at t q = Some n /\ snd (end_ now t) = name n) /\
  (exists n', node_at t' q = Some n' /\ end_time n' = now) /\
  (forall q', q' <> q ->
     option_map end_time (node_at t' q') = option_map end_time (node_at t q')) /\
  (forall qp i, q = qp ++ [i] ->
     exists pn pn' cn',
       node_at t qp = Some pn /\ node_at t' qp = Some pn' /\
       node_at t' q = Some cn' /\
       total_time pn' = total_time pn + total_time cn' /\
       personal_time pn' = personal_time pn).
Proof.
  intros Hnow.
  induction t as [n b e pt tot cs par IH] using proc_rect_In.
  cbn zeta. cbn [end_].
  case_children cs; cbn iota beta.
  - cbn [active_idx on_last fst snd].
    split; [eexists; split; reflexivity|].
    split; [eexists; split; reflexivity|]. split.
    + intros [|i r] Hq; [congruence|]. reflexivity.
    + intros [|j qp] i Hq; discriminate.
  - rewrite active_idx_snoc, Ec. cbn [fst snd].
    split; [eexists; split; reflexivity|].
    split; [eexists; split; reflexivity|]. split.
    + intros [|i r] Hq; [congruence|]. reflexivity.
    + intros [|j qp] i Hq; discriminate.
  - rewrite active_idx_snoc, Ec.
    specialize (IH c (In_snoc_last _ _)). cbn zeta in IH.
    destruct (end_ now c) as [c' nm'] eqn:Hc. cbn [fst snd] in *.
    destruct IH as ((m & Hm & Hnm) & (m' & Hm' & Hme) & Hrest & Hpar).
    rewrite !node_at_snoc_len.
    split; [eauto|]. split; [eauto|]. split.
    + intros [|i r] Hq; [reflexivity|].
      cbn [node_at children].
      destruct (Nat.eq_dec i (List.length init)) as [->|Hi].
      * rewrite !nth_error_snoc_len. apply Hrest. congruence.
      * rewrite (nth_error_snoc_other init c' c i Hi). reflexivity.
    + intros [|j qp] i Hq.
      * injection Hq as <- Hqc. rewrite Hqc in *.
        cbn [node_at] in Hm'. injection Hm' as <-.
        eexists _, _, c'. split; [reflexivity|]. split; [reflexivity|].
        split; [reflexivity|].
        cbn [total_time personal_time].
        assert (ended c' = true) as ->.
        { unfold ended. rewrite Hme. now apply negb_true_iff, Z.eqb_neq. }
        split; reflexivity.
      * injection Hq as <- Hqc.
        destruct (Hpar qp i Hqc) as (pn & pn' & cn' & H1 & H2 & H3 & H4 & H5).
        exists pn, pn', cn'. rewrite !node_at_snoc_len. auto.
Qed.

Lemma all_ended_mk n b e pt tot cs par :
  all_ended (mkProc n b e pt tot cs par) = true <->
  ended (mkProc n b e pt tot cs par) = true
  /\ (forall c, In c cs -> all_ended c = true).
Proof. cbn [all_ended]. rewrite andb_true_iff, forallb_forall. tauto. Qed.

Lemma chain_wf_mk n b e pt tot cs par :
  chain_wf (mkProc n b e pt tot cs par) = true <->
  (forall c, In c cs -> chain_wf c = true)
  /\ (forall c, In c (removelast cs) -> all_ended c = true)
  /\ (ended (mkProc n b e pt tot cs par) = true ->
      forall c, In c cs -> all_ended c = true).
Proof.
  cbn [chain_wf]. destruct (ended _); cbn iota;
    rewrite ?andb_true_r, !andb_true_iff, !forallb_forall.
  - split; [intros [[H1 H2] H3]; auto|].
    intros (H1 & H2 & H3). auto.
  - split; [intros [H1 H2]; repeat split; auto; discriminate|].
    intros (H1 & H2 & _). auto.
Qed.

Lemma chain_wf_ended_all (p : proc) :
  chain_wf p = true -> ended p = true -> all_ended p = true.
Proof.
  destruct p as [n b e pt tot cs par].
  rewrite chain_wf_mk, all_ended_mk. intros (_ & _ & H3) He. auto.
Qed.

Lemma all_ended_node_at (p : proc) (q : list nat) (n : proc) :
  all_ended p = true -> node_at p q = Some n -> ended n = true.
Proof.
  revert p. induction q as [|i q IH]; intros [nm b e pt tot cs par] Ha Hn.
  - injection Hn as <-. apply all_ended_mk in Ha. tauto.
  - cbn [node_at children] in Hn.
    destruct (nth_error cs i) as [c|] eqn:Ei; [|discriminate].
    apply all_ended_mk in Ha. apply (IH c); [|exact Hn].
    apply (proj2 Ha). eapply nth_error_In. exact Ei.
Qed.

Ltac ended_mk := unfold ended in *; cbn [end_time] in *.

Lemma begin_chain_wf (now : Z) (nm : string) (p p' : proc) :
  begin now nm p = Some p' -> chain_wf p = true -> chain_wf p' = true.
Proof.
  revert p'.
  induction p as [n b e pt tot cs par IH] using proc_rect_In; intros p' Hb.
  cbn [begin] in Hb. destruct (ended _) eqn:He; [discriminate|].
  rewrite chain_wf_mk. intros (H1 & H2 & H3).
  case_children cs; cbn iota beta zeta in Hb.
  - injection Hb as <-. apply chain_wf_mk. cbn [children append_child
      set_children add_time end_time name begin_time personal_time
      total_time parent app removelast].
    split; [intros x [<-|[]]; reflexivity|]. split; [intros x []|].
    ended_mk. rewrite He. discriminate.
  - injection Hb as <-. apply chain_wf_mk. cbn [children append_child
      set_children add_time end_time name begin_time personal_time
      total_time parent].
    rewrite removelast_last. split; [|split].
    + intros x Hx. in_snoc Hx; [auto|reflexivity].
    + intros x Hx. in_snoc Hx.
      * apply H2. rewrite removelast_last. exact Hin.
      * apply chain_wf_ended_all; auto using In_snoc_last.
    + ended_mk. rewrite He. discriminate.
  - destruct (begin now nm c) as [c'|] eqn:Hc; [|discriminate].
    injection Hb as <-. apply chain_wf_mk.
    rewrite removelast_last in *. split; [|split].
    + intros x Hx. in_snoc Hx; [auto using in_or_app|].
      apply (IH c (In_snoc_last _ _) c' Hc). auto using In_snoc_last.
    + exact H2.
    + ended_mk. rewrite He. discriminate.
Qed.

Lemma end_chain_wf (now : Z) (p : proc) :
  chain_wf p = true -> chain_wf (fst (end_ now p)) = true.
Proof.
  induction p as [n b e pt tot cs par IH] using proc_rect_In.
  rewrite chain_wf_mk. intros (H1 & H2 & H3).
  cbn [end_]. case_children cs; cbn [fst].
  - apply chain_wf_mk. cbn [children add_time removelast].
    split; [intros x []|]. split; [intros x []|]. intros _ x [].
  - apply chain_wf_mk. cbn [children add_time]. split; [exact H1|].
    split; [exact H2|]. intros _ x Hx. in_snoc Hx.
    + apply H2. rewrite removelast_last. exact Hin.
    + apply chain_wf_ended_all; auto using In_snoc_last.
  - destruct (end_ now c) as [c' nm'] eqn:Hc. cbn [fst].
    apply chain_wf_mk. rewrite removelast_last in *. split; [|split].
    + intros x Hx. in_snoc Hx; [auto using in_or_app|].
      change c' with (fst (c', nm')). rewrite <- Hc.
      apply IH; auto using In_snoc_last.
    + exact H2.
    + intros He. exfalso.
      assert (Hc1 : all_ended c = true) by (apply H3; auto using In_snoc_last).
      destruct c as [? ? ? ? ? ? ?]. apply all_ended_mk in Hc1.
      rewrite Ec in Hc1. destruct Hc1 as [? _]. discriminate.
Qed.

Lemma forallb_map_eq {A B : Type} (f : B -> bool) (g : A -> B) (l : list A) :
  forallb f (map g l) = forallb (fun x => f (g x)) l.
Proof. induction l as [|x l IH]; simpl; [reflexivity|now rewrite IH]. Qed.

Lemma forallb_ext_in {A : Type} (f g : A -> bool) (l : list A) :
  (forall x, In x l -> f x = g x) -> forallb f l = forallb g l.
Proof.
  induction l as [|x l IH]; simpl; intros H; [reflexivity|].
  rewrite H by now left. rewrite IH by (intros; apply H; now right).
  reflexivity.
Qed.

Lemma parents_ok_below_mk n b e pt tot cs par :
  parents_ok_below (mkProc n b e pt tot cs par) = true <->
  (forall c, In c cs -> parent c = true /\ parents_ok_below c = true).
Proof.
  cbn [parents_ok_below]. rewrite forallb_forall.
  split; intros H c Hc; specialize (H c Hc);
    [apply andb_true_iff; exact H|apply andb_true_iff in H; exact H].
Qed.

Lemma reopen_parent (p : proc) : parent (reopen_named_root p) = parent p.
Proof. destruct p; reflexivity. Qed.

Lemma parents_ok_below_reopen (p : proc) :
  parents_ok_below (reopen_named_root p) = parents_ok_below p.
Proof.
  induction p as [n b e pt tot cs par IH] using proc_rect_In.
  cbn [reopen_named_root parents_ok_below]. rewrite forallb_map_eq.
  apply forallb_ext_in. intros c Hc. rewrite reopen_parent, IH by exact Hc.
  reflexivity.
Qed.

(** [json.load] of what [ProcessEncoder] wrote: the tree again, with
    every node named ["root"] reopened and the parent links set by the
    hook. *)
Lemma load_default (p : proc) :
  parents_ok_below p = true ->
  load_obj (default p) = set_parent (reopen_named_root p) false.
Proof.
  induction p as [n b e pt tot cs par IH] using proc_rect_In.
  rewrite parents_ok_below_mk. intros Hp.
  cbn [default load_obj]. unfold json_object_hook. rewrite !map_map.
  assert (Hcs : map (fun x => set_parent (load_obj (default x)) true) cs
                = map reopen_named_root cs).
  { apply map_ext_in. intros c Hc. destruct (Hp c Hc) as [Hpc Hoc].
    rewrite (IH c Hc Hoc). destruct c as [? ? ? ? ? ? cpar].
    cbn in Hpc. subst cpar. reflexivity. }
  rewrite Hcs. cbn [reopen_named_root].
  destruct (String.eqb n "root"); reflexivity.
Qed.

Lemma begin_parents (now : Z) (nm : string) (p p' : proc) :
  begin now nm p = Some p' -> parents_ok_below p = true ->
  parents_ok_below p' = true /\ parent p' = parent p.
Proof.
  revert p'.
  induction p as [n b e pt tot cs par IH] using proc_rect_In; intros p' Hb.
  cbn [begin] in Hb. destruct (ended _) eqn:He; [discriminate|].
  rewrite parents_ok_below_mk. intros Hp.
  case_children cs; cbn iota beta zeta in Hb.
  - injection Hb as <-. split; reflexivity.
  - injection Hb as <-. split; [|reflexivity].
    apply parents_ok_below_mk. cbn [children append_child set_children
      add_time]. intros x Hx. in_snoc Hx; [auto|split; reflexivity].
  - destruct (begin now nm c) as [c'|] eqn:Hc; [|discriminate].
    injection Hb as <-. split; [|reflexivity].
    apply parents_ok_below_mk. intros x Hx. in_snoc Hx; [auto using in_or_app|].
    destruct (Hp c (In_snoc_last _ _)) as [Hpc Hoc].
    destruct (IH c (In_snoc_last _ _) c' Hc Hoc) as [H1 H2].
    rewrite H2. auto.
Qed.

Lemma end_parents (now : Z) (p : proc) :
  parents_ok_below p = true ->
  parents_ok_below (fst (end_ now p)) = true /\ parent (fst (end_ now p)) = parent p.
Proof.
  induction p as [n b e pt tot cs par IH] using proc_rect_In.
  rewrite parents_ok_below_mk. intros Hp.
  cbn [end_]. case_children cs; cbn [fst].
  - split; reflexivity.
  - split; [|reflexivity]. apply parents_ok_below_mk. exact Hp.
  - destruct (end_ now c) as [c' nm'] eqn:Hc. cbn [fst].
    split; [|reflexivity]. apply parents_ok_below_mk.
    intros x Hx. in_snoc Hx; [auto using in_or_app|].
    destruct (Hp c (In_snoc_last _ _)) as [Hpc Hoc].
    destruct (IH c (In_snoc_last _ _) Hoc) as [H1 H2].
    rewrite Hc in H1, H2. cbn [fst] in H1, H2. rewrite H2. auto.
Qed.

Lemma reload_parents_ok (t : proc) :
  parents_ok t = true -> loadf (savef t) = reopen_named_root t.
Proof.
  unfold parents_ok, loadf, savef. rewrite andb_true_iff, negb_true_iff.
  intros [Hpar Hok]. rewrite (load_default t Hok).
  destruct t; cbn in *. subst. reflexivity.
Qed.

Lemma reach_parents_ok (m : proc -> bool) (t : proc) :
  reach m t -> parents_ok t = true.
Proof.
  unfold parents_ok.
  induction 1 as [now|t now nm t' _ IH E|t now _ IH|t Ht IH Hm].
  - reflexivity.
  - apply andb_true_iff in IH as [H1 H2].
    destruct (begin_parents now nm t t' E H2) as [H3 H4].
    rewrite H3, H4, H1. reflexivity.
  - apply andb_true_iff in IH as [H1 H2].
    destruct (end_parents now t H2) as [H3 H4].
    unfold leave_process. rewrite H3, H4, H1. reflexivity.
  - rewrite reload_parents_ok by exact IH.
    rewrite reopen_parent, parents_ok_below_reopen. exact IH.
Qed.

Lemma reopen_no_inner_root (p : proc) :
  no_inner_root p = true ->
  reopen_named_root p
  = mkProc (name p) (begin_time p)
      (if String.eqb (name p) "root" then -1 else end_time p)
      (personal_time p) (total_time p) (children p) (parent p).
Proof.
  assert (Hall : forall p, negb (String.eqb (name p) "root") = true ->
                  no_inner_root p = true -> reopen_named_root p = p).
  { intros p0.
    induction p0 as [n b e pt tot cs par IH] using proc_rect_In.
    cbn [name no_inner_root reopen_named_root]. rewrite negb_true_iff.
    intros Hn Hcs. rewrite Hn. f_equal.
    rewrite <- (map_id cs) at 2. apply map_ext_in. intros c Hc.
    rewrite forallb_forall in Hcs. specialize (Hcs c Hc).
    apply andb_true_iff in Hcs as [H1 H2]. exact (IH c Hc H1 H2). }
  destruct p as [n b e pt tot cs par]. cbn [no_inner_root reopen_named_root].
  intros Hcs. f_equal.
  rewrite <- (map_id cs) at 2. apply map_ext_in. intros c Hc.
  rewrite forallb_forall in Hcs. specialize (Hcs c Hc).
  apply andb_true_iff in Hcs as [H1 H2]. exact (Hall c H1 H2).
Qed.

Lemma reach_chain_wf (m : proc -> bool) (t : proc) :
  (forall t0, m t0 = true -> no_inner_root t0 = true) ->
  reach m t -> chain_wf t = true.
Proof.
  intros Hm.
  induction 1 as [now|t now nm t' _ IH E|t now _ IH|t Ht IH Hl].
  - reflexivity.
  - exact (begin_chain_wf now nm t t' E IH).
  - exact (end_chain_wf now t IH).
  - rewrite reload_parents_ok by exact (reach_parents_ok m t Ht).
    rewrite reopen_no_inner_root by exact (Hm t Hl).
    destruct t as [n b e pt tot cs par]. cbn [name begin_time end_time
      personal_time total_time children parent].
    apply chain_wf_mk in IH as (H1 & H2 & H3).
    apply chain_wf_mk. split; [exact H1|]. split; [exact H2|].
    destruct (String.eqb n "root"); [discriminate|exact H3].
Qed.

Lemma open_node_on_active_path (t : proc) (q : list nat) (n : proc) :
  chain_wf t = true -> node_at t q = Some n -> ended n = false ->
  exists r, active_idx t = q ++ r.
Proof.
  revert q.
  induction t as [nm b e pt tot cs par IH] using proc_rect_In;
    intros [|i q] Hwf Hn Hopen; [eexists; reflexivity|].
  apply chain_wf_mk in Hwf as (H1 & H2 & H3).
  cbn [node_at children] in Hn.
  destruct (nth_error cs i) as [ci|] eqn:Ei; [|discriminate].
  destruct (snoc_cases cs) as [->|(init & c & ->)];
    [now rewrite nth_error_nil in Ei|].
  rewrite removelast_last in H2.
  destruct (Nat.lt_trichotomy i (List.length init)) as [Hlt|[->|Hgt]].
  - exfalso. rewrite nth_error_app1 in Ei by exact Hlt.
    assert (Ha : all_ended ci = true) by (apply H2; eapply nth_error_In; eauto).
    rewrite (all_ended_node_at ci q n Ha Hn) in Hopen. discriminate.
  - rewrite nth_error_snoc_len in Ei. injection Ei as <-.
    rewrite active_idx_snoc.
    destruct (ended c) eqn:Ec.
    + exfalso.
      assert (Ha : all_ended c = true)
        by (apply chain_wf_ended_all; auto using In_snoc_last).
      rewrite (all_ended_node_at c q n Ha Hn) in Hopen. discriminate.
    + destruct (IH c (In_snoc_last _ _) q (H1 c (In_snoc_last _ _)) Hn Hopen)
        as [r Hr].
      exists r. rewrite Hr. reflexivity.
  - exfalso. rewrite nth_error_snoc_beyond in Ei by exact Hgt. discriminate.
Qed.

Lemma append_empty_r (s : string) : (s ++ "")%string = s.
Proof. induction s as [|a s IH]; simpl; [reflexivity|now rewrite IH]. Qed.

Lemma path_names_hd (p : proc) (q : list nat) :
  exists l, path_names p q = name p :: l.
Proof. destruct q; eexists; reflexivity. Qed.

Lemma running_path_names (t : proc) :
  running_path t = String.concat "." (path_names t (active_idx t)).
Proof.
  induction t as [n b e pt tot cs par IH] using proc_rect_In.
  cbn [running_path active_idx path_names name children].
  case_children cs; cbn iota beta.
  - apply append_empty_r.
  - apply append_empty_r.
  - cbn [path_names children]. rewrite nth_error_snoc_len.
    rewrite IH by apply In_snoc_last.
    cbn [name].
    destruct (path_names_hd c (active_idx c)) as [l ->]. reflexivity.
Qed.

Lemma chain_along_active (t : proc) : chain_along t (active_idx t).
Proof.
  induction t as [n b e pt tot cs par IH] using proc_rect_In.
  cbn [active_idx]. case_children cs; cbn iota beta.
  - left. reflexivity.
  - right. exists c. cbn [children]. rewrite on_last_snoc, Ec. reflexivity.
  - exists init, c. repeat split; auto using In_snoc_last.
Qed.

Lemma all_ended_total (p : proc) :
  time_inv p = true -> all_ended p = true -> total_time p = sum_personal p.
Proof.
  induction p as [n b e pt tot cs par IH] using proc_rect_In.
  rewrite time_inv_mk, all_ended_mk. intros [Heq Hinv] [_ Hall].
  cbn [total_time sum_personal]. rewrite Heq. f_equal. f_equal.
  apply map_ext_in. intros c Hc. unfold ended_total.
  assert (Hac := Hall c Hc).
  destruct c as [? ? ? ? ? ? ?] eqn:Ec.
  pose proof Hac as Hac'. apply all_ended_mk in Hac' as [-> _].
  rewrite <- Ec in *. apply IH; auto.
Qed.

(** A division whose quotient and remainder are known. *)
Lemma div_known (a b q r : Z) : 0 <= r < b -> a = b * q + r -> a / b = q.
Proof. intros H1 H2. symmetry. exact (Z.div_unique_pos a b q r H1 H2). Qed.

Lemma time_str_format_spec (cs : Z) :
  0 <= cs -> time_str cs = format_spec cs.
Proof.
  intros Hcs. unfold time_str, format_spec.
  rewrite Z.quot_div_nonneg by lia.
  (* the mixed-radix digits of [cs] *)
  set (s := cs / 100). set (r := cs mod 100).
  assert (Es : cs = 100 * s + r) by (apply Z.div_mod; discriminate).
  assert (Hr : 0 <= r < 100) by (apply Z.mod_pos_bound; reflexivity).
  set (m0 := s / 60). set (s1 := s mod 60).
  assert (Em : s = 60 * m0 + s1) by (apply Z.div_mod; discriminate).
  assert (Hs1 : 0 <= s1 < 60) by (apply Z.mod_pos_bound; reflexivity).
  set (h0 := m0 / 60). set (m1 := m0 mod 60).
  assert (Eh : m0 = 60 * h0 + m1) by (apply Z.div_mod; discriminate).
  assert (Hm1 : 0 <= m1 < 60) by (apply Z.mod_pos_bound; reflexivity).
  set (d := h0 / 24). set (h1 := h0 mod 24).
  assert (Ed : h0 = 24 * d + h1) by (apply Z.div_mod; discriminate).
  assert (Hh1 : 0 <= h1 < 24) by (apply Z.mod_pos_bound; reflexivity).
  assert (Hd : 0 <= d) by (apply Z.div_pos; [|lia]; apply Z.div_pos; [|lia];
                           apply Z.div_pos; [|lia]; apply Z.div_pos; lia).
  cbv zeta. fold s m0 h0 d.
  destruct (Z.lt_ge_cases s 60) as [L1|L1].
  - rewrite (proj2 (Z.leb_gt 60 s) L1), (proj2 (Z.ltb_lt cs 6000)) by lia.
    reflexivity.
  - rewrite (proj2 (Z.leb_le 60 s) L1), (proj2 (Z.ltb_ge cs 6000)) by lia.
    replace (cs - m0 * 60 * 100) with (100 * s1 + r) by lia.
    destruct (Z.lt_ge_cases m0 60) as [L2|L2].
    + rewrite (proj2 (Z.leb_gt 60 m0) L2), (proj2 (Z.ltb_lt cs 360000)) by lia.
      rewrite (div_known cs 6000 m0 (100 * s1 + r)) by lia.
      replace (cs - 6000 * m0) with (100 * s1 + r) by lia.
      reflexivity.
    + rewrite (proj2 (Z.leb_le 60 m0) L2), (proj2 (Z.ltb_ge cs 360000)) by lia.
      replace (m0 - h0 * 60) with m1 by lia.
      destruct (Z.lt_ge_cases h0 24) as [L3|L3].
      * rewrite (proj2 (Z.leb_gt 24 h0) L3), (proj2 (Z.ltb_lt cs 8640000)) by lia.
        rewrite (div_known cs 360000 h0 (6000 * m1 + 100 * s1 + r)) by lia.
        rewrite (div_known (cs - 360000 * h0) 6000 m1 (100 * s1 + r)) by lia.
        replace (cs - 360000 * h0 - 6000 * m1) with (100 * s1 + r) by lia.
        reflexivity.
      * rewrite (proj2 (Z.leb_le 24 h0) L3), (proj2 (Z.ltb_ge cs 8640000)) by lia.
        replace (h0 - d * 24) with h1 by lia.
        rewrite (div_known cs 8640000 d (360000 * h1 + 6000 * m1 + 100 * s1 + r))
          by lia.
        rewrite (div_known (cs - 8640000 * d) 360000 h1 (6000 * m1 + 100 * s1 + r))
          by lia.
        rewrite (div_known (cs - 8640000 * d - 360000 * h1) 6000 m1 (100 * s1 + r))
          by lia.
        replace (cs - 8640000 * d - 360000 * h1 - 6000 * m1) with (100 * s1 + r)
          by lia.
        reflexivity.
Qed.

Lemma run_infinite (k : nat) (flushes : nat) :
  run k printer_init flushes = (printer_init, (flushes + k)%nat).
Proof.
  revert flushes. induction k as [|k IH]; intros flushes; simpl.
  - now rewrite Nat.add_0_r.
  - rewrite IH. now rewrite Nat.add_succ_r.
Qed.

Lemma begin_name (now : Z) (nm : string) (p p' : proc) :
  begin now nm p = Some p' -> name p' = name p.
Proof.
  destruct p as [n b e pt tot cs par]. cbn [begin].
  destruct (ended _); [discriminate|].
  destruct (on_last _ cs) as [|c|init c [c'|]]; intros H; inversion H; reflexivity.
Qed.

Lemma end_name (now : Z) (p : proc) : name (fst (end_ now p)) = name p.
Proof.
  destruct p as [n b e pt tot cs par]. cbn [end_].
  destruct (on_last _ cs) as [|c|init c [c' nm']]; reflexivity.
Qed.

Lemma reach_root_name (m : proc -> bool) (t : proc) :
  reach m t -> name t = "root"%string.
Proof.
  induction 1 as [now|t now nm t' _ IH E|t now _ IH|t Ht IH Hl].
  - reflexivity.
  - rewrite (begin_name now nm t t' E). exact IH.
  - unfold leave_process. rewrite end_name. exact IH.
  - rewrite reload_parents_ok by exact (reach_parents_ok m t Ht).
    destruct t; exact IH.
Qed.

Lemma state_after_reach (m : proc -> bool) (ops : list op) (t : proc) :
  run_ops (fresh 0) ops = Some t -> reach m (state_after ops).
Proof.
  intros H. unfold state_after. rewrite H.
  apply (run_ops_reach m (fresh 0) t ops H). apply reach_fresh.
Qed.

Lemma node_at_app (t : proc) (q r : list nat) :
  node_at t (q ++ r) = match node_at t q with
                       | Some n => node_at n r
                       | None => None
                       end.
Proof.
  revert t. induction q as [|i q IH]; intros t; [reflexivity|].
  cbn [node_at app]. destruct (nth_error (children t) i); [apply IH|reflexivity].
Qed.

Lemma node_at_past_last (t : proc) (q : list nat) (n : proc) :
  node_at t q = Some n -> node_at t (q ++ [List.length (children n)]) = None.
Proof.
  intros H. rewrite node_at_app, H. cbn [node_at].
  now rewrite (proj2 (nth_error_None _ _)) by lia.
Qed.

(** Every node the walk of [active_idx] passes through is open, when
    the top is. *)
Lemma active_prefix_open (t : proc) (q r : list nat) (n : proc) :
  ended t = false -> active_idx t = q ++ r -> node_at t q = Some n ->
  ended n = false.
Proof.
  revert q r n.
  induction t as [nm b e pt tot cs par IH] using proc_rect_In;
    intros q r n Ht Ha Hn.
  destruct q as [|i q].
  - injection Hn as <-. exact Ht.
  - destruct (snoc_cases cs) as [->|(init & c & ->)].
    + cbn [active_idx on_last] in Ha. discriminate.
    + rewrite active_idx_snoc in Ha. destruct (ended c) eqn:Ec; [discriminate|].
      injection Ha as <- Ha. rewrite node_at_snoc_len in Hn.
      exact (IH c (In_snoc_last _ _) q r n Ec Ha Hn).
Qed.

(** [end_] does not touch a subtree off the active path. *)
Lemma end_off_path (now : Z) (t : proc) (q : list nat) :
  (forall r, active_idx t <> q ++ r) -> node_at (fst (end_ now t)) q = node_at t q.
Proof.
  revert q.
  induction t as [nm b e pt tot cs par IH] using proc_rect_In; intros q Hq.
  destruct q as [|i q].
  - exfalso. exact (Hq _ eq_refl).
  - cbn [end_]. case_children cs; cbn iota beta.
    + reflexivity.
    + reflexivity.
    + rewrite active_idx_snoc, Ec in Hq.
      specialize (IH c (In_snoc_last _ _)).
      destruct (end_ now c) as [c' nm'] eqn:Hc. cbn [fst] in *.
      cbn [node_at children].
      destruct (Nat.eq_dec i (List.length init)) as [->|Hi].
      * rewrite !nth_error_snoc_len. apply IH.
        intros r Hr. apply (Hq r). rewrite Hr. reflexivity.
      * rewrite (nth_error_snoc_other init c' c i Hi). reflexivity.
Qed.

Lemma node_at_reopen (t : proc) (q : list nat) :
  node_at (reopen_named_root t) q = option_map reopen_named_root (node_at t q).
Proof.
  revert t. induction q as [|i q IH]; intros t; [reflexivity|].
  destruct t as [nm b e pt tot cs par]. cbn [node_at reopen_named_root children].
  rewrite nth_error_map. destruct (nth_error cs i); [apply IH|reflexivity].
Qed.

Lemma fields_reopen (n : proc) :
  name n <> "root"%string -> fields (reopen_named_root n) = fields n.
Proof.
  destruct n as [nm b e pt tot cs par]. cbn [name]. intros Hn.
  unfold fields. cbn [reopen_named_root name begin_time end_time personal_time
    total_time children].
  rewrite (proj2 (String.eqb_neq nm "root") Hn), length_map. reflexivity.
Qed.

Lemma time_inv_node_at (t : proc) (q : list nat) (n : proc) :
  time_inv t = true -> node_at t q = Some n -> time_inv n = true.
Proof.
  revert t. induction q as [|i q IH]; intros [nm b e pt tot cs par] Ht Hn.
  - injection Hn as <-. exact Ht.
  - cbn [node_at children] in Hn.
    destruct (nth_error cs i) as [c|] eqn:Ei; [|discriminate].
    apply time_inv_mk in Ht. apply (IH c); [|exact Hn].
    apply (proj2 Ht). eapply nth_error_In. exact Ei.
Qed.

Lemma time_inv_here (n : proc) :
  time_inv n = true ->
  total_time n = personal_time n + sum_Z (map ended_total (children n)).
Proof. destruct n. rewrite time_inv_mk. tauto. Qed.

Lemma reachable_chain_wf (t : proc) : reachable t -> chain_wf t = true.
Proof. apply reach_chain_wf. discriminate. Qed.

(* ------------------------------------------------------------------ *)
(** ** The report walk *)

Lemma skipn_cons_inv {A : Type} (l : list A) (k : nat) (x : A) (suf : list A) :
  skipn k l = x :: suf -> nth_error l k = Some x /\ skipn (S k) l = suf.
Proof.
  revert l. induction k as [|k IH]; intros [|y l] H; cbn in *; try discriminate.
  - injection H as -> ->. split; reflexivity.
  - exact (IH l H).
Qed.

Lemma parents_ok_below_child (p c : proc) :
  parents_ok_below p = true -> In c (children p) ->
  parent c = true /\ parents_ok_below c = true.
Proof.
  destruct p as [n b e pt tot cs par]. cbn [parents_ok_below children].
  rewrite forallb_forall. intros H Hc. apply andb_true_iff. exact (H c Hc).
Qed.

Lemma report_walk_S (fuel : nat) (p : proc) (ctx : list frame) (d : Z) :
  report_walk (S fuel) p ctx d = (d, p) :: walk_cont fuel (report_next p ctx d).
Proof. reflexivity. Qed.

(** The walk lists a subtree in pre-order, then goes on from where the
    inner loop leaves the subtree's root. *)
Lemma report_walk_subtree (p : proc) :
  parents_ok_below p = true ->
  forall ctx d fuel,
    report_walk (count_nodes p + fuel) p ctx d
    = preorder d p ++ walk_cont fuel (ascend p ctx d).
Proof.
  induction p as [n b e pt tot cs par IH] using proc_rect_In.
  intros Hok ctx d fuel.
  set (P := mkProc n b e pt tot cs par).
  assert (Hinner : forall suf k c, skipn k cs = c :: suf ->
    report_walk (list_sum (map count_nodes (c :: suf)) + fuel) c
                (Frame P k :: ctx) (d + 1)
    = flat_map (preorder (d + 1)) (c :: suf) ++ walk_cont fuel (ascend P ctx d)).
  { induction suf as [|c' suf IHs]; intros k c Hk;
      destruct (skipn_cons_inv cs k c _ Hk) as [Hnth Hnext];
      assert (Hin : In c cs) by (eapply nth_error_In; exact Hnth);
      destruct (parents_ok_below_child P c Hok Hin) as [Hpc Hokc].
    - cbn [map list_sum fold_right flat_map]. rewrite Nat.add_0_r, app_nil_r.
      rewrite (IH c Hin Hokc). f_equal.
      cbn [ascend]. rewrite Hpc. cbn [children P].
      assert (Hn : nth_error cs (S k) = None).
      { apply nth_error_None. rewrite <- (firstn_skipn (S k) cs), Hnext.
        rewrite app_nil_r, length_firstn. lia. }
      rewrite Hn. now rewrite Z.add_simpl_r.
    - cbn [map list_sum fold_right flat_map]. rewrite <- Nat.add_assoc.
      rewrite (IH c Hin Hokc), <- app_assoc. f_equal.
      destruct (skipn_cons_inv cs (S k) c' suf Hnext) as [Hnth' _].
      cbn [ascend]. rewrite Hpc. cbn [children P]. rewrite Hnth'.
      cbn [walk_cont]. apply (IHs (S k) c' Hnext). }
  destruct cs as [|c0 rest].
  - reflexivity.
  - subst P. cbn [count_nodes Nat.add]. rewrite report_walk_S.
    unfold report_next. cbn [children]. cbn [walk_cont].
    rewrite (Hinner rest 0%nat c0 eq_refl). reflexivity.
Qed.

Lemma report_visits_preorder (t : proc) :
  parents_ok t = true -> report_visits t = preorder 0 t.
Proof.
  unfold parents_ok. intros H. apply andb_true_iff in H as [Hp Hok].
  unfold report_visits. rewrite <- (Nat.add_0_r (count_nodes t)).
  rewrite (report_walk_subtree t Hok [] 0 0).
  destruct t as [n b e pt tot cs par]. cbn [ascend parent] in *.
  apply negb_true_iff in Hp. rewrite Hp. apply app_nil_r.
Qed.

(* ------------------------------------------------------------------ *)
(** ** The table by name *)

Lemma assoc_avgs_add (acc : list (string * list proc)) (p : proc) (k : string) :
  assoc k (avgs_add acc p)
  = if String.eqb (name p) k then merge_found (assoc k acc) [p] else assoc k acc.
Proof.
  induction acc as [|[k' v] rest IH]; cbn [avgs_add assoc].
  - destruct (String.eqb (name p) k); reflexivity.
  - destruct (String.eqb_spec k' (name p)) as [->|Hne]; cbn [assoc].
    + destruct (String.eqb (name p) k); reflexivity.
    + rewrite IH. destruct (String.eqb_spec k' k) as [Hk|Hk];
        destruct (String.eqb_spec (name p) k) as [Hp|Hp]; try reflexivity.
      congruence.
Qed.

Lemma assoc_fold_avgs (L : list proc) (acc : list (string * list proc)) (k : string) :
  assoc k (fold_left avgs_add L acc)
  = merge_found (assoc k acc) (filter (fun n => String.eqb (name n) k) L).
Proof.
  revert acc. induction L as [|p L IH]; intros acc; cbn [fold_left filter].
  - destruct (assoc k acc); cbn [merge_found]; [now rewrite app_nil_r|reflexivity].
  - rewrite IH, assoc_avgs_add.
    destruct (String.eqb (name p) k).
    + destruct (assoc k acc); cbn [merge_found]; [|reflexivity].
      now rewrite <- app_assoc.
    + reflexivity.
Qed.

Lemma keys_avgs_add (acc : list (string * list proc)) (p : proc) :
  map fst (avgs_add acc p)
  = if existsb (fun k => String.eqb k (name p)) (map fst acc) then map fst acc
    else map fst acc ++ [name p].
Proof.
  induction acc as [|[k' v] rest IH]; cbn [avgs_add map fst existsb].
  - reflexivity.
  - destruct (String.eqb k' (name p)); cbn [map fst orb]; [reflexivity|].
    rewrite IH. destruct (existsb _ _); reflexivity.
Qed.

Lemma nodup_avgs_add (acc : list (string * list proc)) (p : proc) :
  NoDup (map fst acc) -> NoDup (map fst (avgs_add acc p)).
Proof.
  intros H. rewrite keys_avgs_add.
  destruct (existsb _ _) eqn:E; [exact H|].
  apply (Permutation_NoDup (Permutation_cons_append _ _)).
  constructor; [|exact H].
  intros Hin. assert (existsb (fun k => String.eqb k (name p)) (map fst acc) = true)
    as Hc by (apply existsb_exists; exists (name p); split;
              [exact Hin|apply String.eqb_refl]).
  congruence.
Qed.

Lemma nodup_fold_avgs (L : list proc) (acc : list (string * list proc)) :
  NoDup (map fst acc) -> NoDup (map fst (fold_left avgs_add L acc)).
Proof.
  revert acc. induction L as [|p L IH]; intros acc H; [exact H|].
  apply IH, nodup_avgs_add, H.
Qed.

Lemma assoc_summarize (l : list (string * list proc)) (k : string) :
  assoc k (map summarize l) = option_map (fun v => snd (summarize (k, v))) (assoc k l).
Proof.
  induction l as [|[k' v] rest IH]; cbn [map summarize assoc]; [reflexivity|].
  destruct (String.eqb_spec k' k) as [->|_]; [reflexivity|exact IH].
Qed.

Lemma keys_summarize (l : list (string * list proc)) :
  map fst (map summarize l) = map fst l.
Proof. induction l as [|[k v] rest IH]; cbn; [reflexivity|now rewrite IH]. Qed.

Lemma insert_item_perm {A : Type} (x : string * A) (l : list (string * A)) :
  Permutation (insert_item x l) (x :: l).
Proof.
  induction l as [|y l IH]; cbn [insert_item]; [reflexivity|].
  destruct (String.leb (fst x) (fst y)); [reflexivity|].
  rewrite IH. apply perm_swap.
Qed.

Lemma sort_items_perm {A : Type} (l : list (string * A)) :
  Permutation (sort_items l) l.
Proof.
  induction l as [|x l IH]; cbn [sort_items]; [reflexivity|].
  rewrite insert_item_perm, IH. reflexivity.
Qed.

Lemma assoc_perm {A : Type} (l l' : list (string * A)) (k : string) :
  Permutation l l' -> NoDup (map fst l) -> assoc k l = assoc k l'.
Proof.
  induction 1 as [|x l l' _ IH|x y l|l l' l'' H1 IH1 _ IH2]; intros Hnd.
  - reflexivity.
  - destruct x as [kx vx]. cbn [map fst assoc] in *.
    inversion Hnd; subst. rewrite IH by assumption. reflexivity.
  - destruct x as [kx vx], y as [ky vy]. cbn [map fst assoc] in *.
    inversion Hnd as [|? ? Hn1 Hnd1]; subst. inversion Hnd1; subst.
    destruct (String.eqb_spec ky k) as [->|_];
      destruct (String.eqb_spec kx k) as [->|_]; try reflexivity.
    exfalso. apply Hn1. left. reflexivity.
  - rewrite IH1 by exact Hnd. apply IH2.
    apply (Permutation_NoDup (Permutation_map fst H1) Hnd).
Qed.

Lemma insert_item_sorted {A : Type} (x : string * A) (l : list (string * A)) :
  Sorted item_le l -> Sorted item_le (insert_item x l).
Proof.
  induction l as [|y l IH]; intros Hs; cbn [insert_item].
  - repeat constructor.
  - destruct (String.leb (fst x) (fst y)) eqn:Exy.
    + constructor; [exact Hs|constructor; exact Exy].
    + inversion Hs as [|? ? Hs' Hhd]; subst.
      constructor; [exact (IH Hs')|].
      assert (Hyx : item_le y x).
      { unfold item_le. destruct (String.leb_total (fst x) (fst y)); congruence. }
      destruct l as [|z l]; cbn [insert_item].
      * constructor. exact Hyx.
      * destruct (String.leb (fst x) (fst z)); constructor; [exact Hyx|].
        inversion Hhd; assumption.
Qed.

Lemma sort_items_sorted {A : Type} (l : list (string * A)) :
  Sorted item_le (sort_items l).
Proof.
  induction l as [|x l IH]; cbn [sort_items]; [constructor|].
  apply insert_item_sorted, IH.
Qed.

(* ------------------------------------------------------------------ *)
(** ** Lower-case names *)

Lemma lower_char_idem (a : ascii) : lower_char (lower_char a) = lower_char a.
Proof. destruct a as [[] [] [] [] [] [] [] []]; reflexivity. Qed.

Lemma lower_idem (s : string) : lower (lower s) = lower s.
Proof.
  induction s as [|a s IH]; cbn [lower]; [reflexivity|].
  now rewrite lower_char_idem, IH.
Qed.

Lemma names_lower_mk n b e pt tot cs par :
  names_lower (mkProc n b e pt tot cs par) = true <->
  lower n = n /\ (forall c, In c cs -> names_lower c = true).
Proof.
  cbn [names_lower]. rewrite andb_true_iff, String.eqb_eq, forallb_forall. tauto.
Qed.

Lemma names_lower_Process (nm : string) (par : bool) (now : Z) :
  names_lower (Process nm par now) = true.
Proof.
  apply names_lower_mk. split; [apply lower_idem|intros c []].
Qed.

Lemma begin_names_lower (now : Z) (nm : string) (p p' : proc) :
  begin now nm p = Some p' -> names_lower p = true -> names_lower p' = true.
Proof.
  revert p'.
  induction p as [n b e pt tot cs par IH] using proc_rect_In; intros p' Hb.
  cbn [begin] in Hb. destruct (ended _) eqn:He; [discriminate|].
  rewrite names_lower_mk. intros [Hn Hall].
  case_children cs; cbn iota beta zeta in Hb.
  - injection Hb as <-. apply names_lower_mk. split; [exact Hn|].
    intros x [<-|[]]. apply names_lower_Process.
  - injection Hb as <-. apply names_lower_mk. split; [exact Hn|].
    intros x Hx. in_snoc Hx; [exact (Hall x Hin)|apply names_lower_Process].
  - destruct (begin now nm c) as [c'|] eqn:Hc; [|discriminate].
    injection Hb as <-. apply names_lower_mk. split; [exact Hn|].
    intros x Hx. in_snoc Hx.
    + apply Hall, in_or_app. now left.
    + apply (IH c (In_snoc_last _ _) c' Hc), Hall, In_snoc_last.
Qed.

Lemma end_names_lower (now : Z) (p : proc) :
  names_lower p = true -> names_lower (fst (end_ now p)) = true.
Proof.
  induction p as [n b e pt tot cs par IH] using proc_rect_In.
  rewrite names_lower_mk. intros [Hn Hall].
  cbn [end_]. case_children cs; cbn [fst].
  - apply names_lower_mk. split; [exact Hn|intros x []].
  - apply names_lower_mk. split; [exact Hn|exact Hall].
  - destruct (end_ now c) as [c' nm'] eqn:Hc. cbn [fst].
    apply names_lower_mk. split; [exact Hn|].
    intros x Hx. in_snoc Hx; [apply Hall, in_or_app; now left|].
    change c' with (fst (c', nm')). rewrite <- Hc.
    apply IH; [apply In_snoc_last|apply Hall, In_snoc_last].
Qed.

Lemma reopen_names_lower (p : proc) :
  names_lower (reopen_named_root p) = names_lower p.
Proof.
  induction p as [n b e pt tot cs par IH] using proc_rect_In.
  cbn [reopen_named_root names_lower]. rewrite forallb_map_eq. f_equal.
  apply forallb_ext_in. exact IH.
Qed.

Lemma reach_names_lower (m : proc -> bool) (t : proc) :
  reach m t -> names_lower t = true.
Proof.
  induction 1 as [now|t now nm t' _ IH E|t now _ IH|t Ht IH Hl].
  - apply names_lower_Process.
  - exact (begin_names_lower now nm t t' E IH).
  - exact (end_names_lower now t IH).
  - rewrite (reload_parents_ok t (reach_parents_ok m t Ht)), reopen_names_lower.
    exact IH.
Qed.

Lemma names_lower_node_at (t : proc) (q : list nat) (n : proc) :
  names_lower t = true -> node_at t q = Some n -> lower (name n) = name n.
Proof.
  revert t. induction q as [|i q IH]; intros [nm b e pt tot cs par] Ht Hn;
    apply names_lower_mk in Ht as [Hnm Hall].
  - injection Hn as <-. exact Hnm.
  - cbn [node_at children] in Hn.
    destruct (nth_error cs i) as [c|] eqn:Ei; [|discriminate].
    apply (IH c); [|exact Hn]. apply Hall. eapply nth_error_In. exact Ei.
Qed.

(* ------------------------------------------------------------------ *)
(** ** The running process *)

Lemma running_process_node_at (t : proc) :
  node_at t (active_idx t) = Some (running_process t).
Proof.
  induction t as [n b e pt tot cs par IH] using proc_rect_In.
  cbn [running_process active_idx]. case_children cs; cbn iota beta.
  - reflexivity.
  - reflexivity.
  - rewrite node_at_snoc_len. apply IH, In_snoc_last.
Qed.

Lemma ended_last_ended_no_running (p : proc) :
  on_last (fun _ => tt) (children p) = NoChildren
  \/ (exists c, on_last (fun _ => tt) (children p) = LastEnded c) ->
  ended_last_ended p = true.
Proof.
  unfold ended_last_ended. intros [H|[c H]]; rewrite H; now destruct (ended p).
Qed.

Lemma ended_last_ended_reach (m : proc -> bool) (t : proc) :
  reach m t -> ended_last_ended t = true.
Proof.
  unfold ended_last_ended.
  induction 1 as [now|t now nm t' _ IH E|t now _ IH|t Ht IH Hl].
  - reflexivity.
  - destruct (begin_end_time now nm t t' E) as [He Hend].
    assert (ended t' = false) as -> by (unfold ended in *; now rewrite Hend).
    reflexivity.
  - unfold leave_process. destruct t as [n b e pt tot cs par]. cbn [end_].
    case_children cs.
    + apply ended_last_ended_no_running. left. reflexivity.
    + apply ended_last_ended_no_running. right. exists c.
      transitivity (on_last (fun _ => tt) (init ++ [c])); [reflexivity|].
      rewrite on_last_snoc, Ec. reflexivity.
    + destruct (end_ now c) as [c' nm'] eqn:Hc. cbn [fst children] in *.
      destruct (ended (mkProc n b e pt tot (init ++ [c]) par)) eqn:He;
        [rewrite on_last_snoc, Ec in IH; discriminate IH|].
      match goal with
      | |- (if ended ?X then _ else _) = _ =>
          assert (ended X = false) as -> by exact He
      end.
      reflexivity.
  - rewrite (reload_parents_ok t (reach_parents_ok m t Ht)).
    assert (Hname := reach_root_name m t Ht).
    destruct t as [n b e pt tot cs par]. cbn [name] in Hname. subst n.
    reflexivity.
Qed.

Lemma running_process_self (t : proc) :
  ended_last_ended t = true -> ended t = true -> running_process t = t.
Proof.
  unfold ended_last_ended. intros H He. rewrite He in H.
  destruct t as [n b e pt tot cs par]. cbn [running_process children] in *.
  case_children cs; cbn iota beta in *; try reflexivity. discriminate.
Qed.

(* ------------------------------------------------------------------ *)
(** ** [leave_process] and the active path *)

Lemma leave_active_idx (now : Z) (t : proc) :
  now <> -1 -> ended t = false ->
  (active_idx t = [] -> ended (fst (end_ now t)) = true) /\
  (active_idx t <> [] ->
     ended (fst (end_ now t)) = false /\
     active_idx (fst (end_ now t)) = removelast (active_idx t)).
Proof.
  intros Hnow.
  induction t as [n b e pt tot cs par IH] using proc_rect_In; intros He.
  cbn [end_]. case_children cs; cbn iota beta.
  - split; [|intros H; exfalso; apply H; reflexivity]. intros _. cbn [fst add_time end_time].
    unfold ended. cbn [end_time]. now apply negb_true_iff, Z.eqb_neq.
  - rewrite active_idx_snoc, Ec.
    split; [|intros H; exfalso; apply H; reflexivity]. intros _. cbn [fst add_time end_time].
    unfold ended. cbn [end_time]. now apply negb_true_iff, Z.eqb_neq.
  - rewrite active_idx_snoc, Ec.
    destruct (IH c (In_snoc_last _ _) Ec) as [IH1 IH2].
    destruct (end_ now c) as [c' nm'] eqn:Hc. cbn [fst] in *.
    split; [intros H; discriminate|intros _].
    split; [exact He|].
    rewrite active_idx_snoc.
    destruct (active_idx c) as [|i r] eqn:Ea.
    + now rewrite (IH1 eq_refl).
    + destruct (IH2 ltac:(discriminate)) as [-> ->]. reflexivity.
Qed.

Lemma length_removelast_cons {A : Type} (l : list A) :
  l <> [] -> List.length l = S (List.length (removelast l)).
Proof.
  intros H. destruct l as [|x l]; [congruence|].
  rewrite (app_removelast_last x H) at 1. rewrite length_app. cbn. lia.
Qed.

(* ------------------------------------------------------------------ *)
(** ** Wall-clock accounting *)

Lemma clock_inv_mk n b e pt tot cs par :
  clock_inv (mkProc n b e pt tot cs par) = true <->
  (if ended (mkProc n b e pt tot cs par) then tot = e - b
   else tot = open_marker (mkProc n b e pt tot cs par) - b)
  /\ (forall c, In c cs -> clock_inv c = true).
Proof.
  cbn [clock_inv]. rewrite andb_true_iff, forallb_forall.
  destruct (ended _); rewrite Z.eqb_eq; tauto.
Qed.

Lemma clock_inv_Process (nm : string) (par : bool) (now : Z) :
  clock_inv (Process nm par now) = true.
Proof.
  apply clock_inv_mk. split; [|intros c []].
  cbn. lia.
Qed.

Lemma open_marker_snoc n b e pt tot init c par :
  open_marker (mkProc n b e pt tot (init ++ [c]) par)
  = if ended c then end_time c else begin_time c.
Proof. unfold open_marker. cbn [children]. rewrite on_last_snoc. now destruct (ended c). Qed.

Lemma begin_begin_time (now : Z) (nm : string) (p p' : proc) :
  begin now nm p = Some p' -> begin_time p' = begin_time p.
Proof.
  destruct p as [n b e pt tot cs par]. cbn [begin].
  destruct (ended _); [discriminate|].
  destruct (on_last _ cs) as [|c|init c [c'|]]; intros H; inversion H; reflexivity.
Qed.

Lemma end_begin_time (now : Z) (p : proc) :
  begin_time (fst (end_ now p)) = begin_time p.
Proof.
  destruct p as [n b e pt tot cs par]. cbn [end_].
  destruct (on_last _ cs) as [|c|init c [c' nm']]; reflexivity.
Qed.

Lemma clock_inv_head (p : proc) :
  clock_inv p = true ->
  if ended p then total_time p = end_time p - begin_time p
  else total_time p = open_marker p - begin_time p.
Proof. destruct p. rewrite clock_inv_mk. tauto. Qed.

Lemma begin_clock_inv (now : Z) (nm : string) (p p' : proc) :
  begin now nm p = Some p' -> clock_inv p = true -> clock_inv p' = true.
Proof.
  revert p'.
  induction p as [n b e pt tot cs par IH] using proc_rect_In; intros p' Hb.
  cbn [begin] in Hb. destruct (ended _) eqn:He; [discriminate|].
  rewrite clock_inv_mk, He. intros [Htot Hall].
  case_children cs; cbn iota beta zeta in Hb.
  - injection Hb as <-. apply clock_inv_mk.
    cbn [append_child set_children add_time name begin_time end_time
         personal_time total_time children parent app].
    unfold ended in He |- *. cbn [end_time] in He |- *. rewrite He.
    split; [|intros x [<-|[]]; apply clock_inv_Process].
    unfold open_marker in *. cbn in *. lia.
  - injection Hb as <-. apply clock_inv_mk.
    cbn [append_child set_children add_time name begin_time end_time
         personal_time total_time children parent].
    unfold ended in He |- *. cbn [end_time] in He |- *. rewrite He.
    rewrite open_marker_snoc, Ec in Htot.
    split.
    +
      rewrite open_marker_snoc. cbn. lia.
    + intros x Hx. in_snoc Hx; [exact (Hall x Hin)|apply clock_inv_Process].
  - destruct (begin now nm c) as [c'|] eqn:Hc; [|discriminate].
    injection Hb as <-. destruct (begin_end_time now nm c c' Hc) as [_ Hend].
    assert (Ec' : ended c' = false) by (unfold ended in *; now rewrite Hend).
    apply clock_inv_mk. unfold ended in He |- *. cbn [end_time] in He |- *. rewrite He.
    rewrite open_marker_snoc, Ec in Htot. rewrite open_marker_snoc, Ec'.
    split; [rewrite (begin_begin_time now nm c c' Hc); exact Htot|].
    intros x Hx. in_snoc Hx.
    + apply Hall, in_or_app. now left.
    + apply (IH c (In_snoc_last _ _) c' Hc), Hall, In_snoc_last.
Qed.

Lemma end_clock_inv (now : Z) (p : proc) :
  now <> -1 -> ended p = false -> clock_inv p = true ->
  clock_inv (fst (end_ now p)) = true.
Proof.
  intros Hnow.
  induction p as [n b e pt tot cs par IH] using proc_rect_In; intros He.
  rewrite clock_inv_mk, He. intros [Htot Hall].
  assert (Hnow' : (now =? -1) = false) by now apply Z.eqb_neq.
  cbn [end_]. case_children cs; cbn [fst].
  - apply clock_inv_mk. cbn [add_time name begin_time end_time personal_time
      total_time children parent].
    unfold ended. cbn [end_time]. rewrite Hnow'. cbn [negb]. split; [|intros x []].
    unfold open_marker in Htot. cbn in Htot. lia.
  - apply clock_inv_mk. cbn [add_time name begin_time end_time personal_time
      total_time children parent].
    unfold ended. cbn [end_time]. rewrite Hnow'. cbn [negb]. split; [|exact Hall].
    rewrite open_marker_snoc, Ec in Htot. lia.
  - pose proof (IH c (In_snoc_last _ _) Ec (Hall c (In_snoc_last _ _))) as Hc'.
    pose proof (end_begin_time now c) as Hb'.
    destruct (end_ now c) as [c' nm'] eqn:Hc. cbn [fst] in *.
    apply clock_inv_mk. unfold ended in He |- *. cbn [end_time] in He |- *. rewrite He.
    change (negb (end_time c' =? -1)) with (ended c').
    rewrite open_marker_snoc, Ec in Htot. rewrite open_marker_snoc.
    split.
    + pose proof (clock_inv_head c' Hc') as Hh.
      destruct (ended c'); lia.
    + intros x Hx. in_snoc Hx; [apply Hall, in_or_app; now left|exact Hc'].
Qed.

Lemma clock_inv_node_at (t : proc) (q : list nat) (n : proc) :
  clock_inv t = true -> node_at t q = Some n -> clock_inv n = true.
Proof.
  revert t. induction q as [|i q IH]; intros [nm b e pt tot cs par] Ht Hn.
  - injection Hn as <-. exact Ht.
  - cbn [node_at children] in Hn.
    destruct (nth_error cs i) as [c|] eqn:Ei; [|discriminate].
    apply clock_inv_mk in Ht. apply (IH c); [|exact Hn].
    apply (proj2 Ht). eapply nth_error_In. exact Ei.
Qed.

(* ------------------------------------------------------------------ *)
(** ** Where [running_process] stops *)

Lemma running_process_open (t : proc) :
  ended t = false -> ended (running_process t) = false.
Proof.
  induction t as [n b e pt tot cs par IH] using proc_rect_In; intros He.
  cbn [running_process]. case_children cs; cbn iota beta; try exact He.
  apply IH; [apply In_snoc_last|exact Ec].
Qed.

Lemma running_process_last_ended (t : proc) (init : list proc) (c : proc) :
  children (running_process t) = init ++ [c] -> ended c = true.
Proof.
  revert init c.
  induction t as [n b e pt tot cs par IH] using proc_rect_In; intros init' c'.
  cbn [running_process]. case_children cs; cbn iota beta; cbn [children].
  - intros H. destruct init'; discriminate.
  - intros H. apply app_inj_tail in H as [_ <-]. exact Ec.
  - apply IH. apply In_snoc_last.
Qed.

(* ------------------------------------------------------------------ *)
(** ** The command loop and the drain *)

Section LoopInvariant.

Variable I : proc -> Prop.

(** What the clock readings are assumed to satisfy. *)
Variable R : Z -> Prop.

Hypothesis I_enter : forall t now nm t',
  I t -> enter_process now nm t = Some t' -> I t'.

Hypothesis I_leave : forall t now,
  R now -> ended t = false -> I t -> I (fst (leave_process now t)).

Lemma session_inv (inputs : list (string * Z)) (t : proc) :
  ended t = false -> I t ->
  (forall raw now, In (raw, now) inputs -> R now) ->
  exists t' engaged, session inputs t = Some (t', engaged) /\ I t' /\
    (engaged = true -> ended t' = false).
Proof.
  revert t. induction inputs as [|[raw now] rest IH]; intros t He Ht Hnows.
  - exists t, true. split; [reflexivity|]. split; [exact Ht|]. intros _. exact He.
  - cbn [session].
    assert (Hrest : forall raw' now', In (raw', now') rest -> R now')
      by (intros raw' now' Hin; exact (Hnows raw' now' (or_intror Hin))).
    assert (Hnow : R now) by exact (Hnows raw now (or_introl eq_refl)).
    destruct (classify raw) as [|nm| |].
    + exists t, false. split; [reflexivity|]. split; [exact Ht|]. discriminate.
    + destruct (begin_total now nm t He) as [t' Hb].
      change (enter_process now nm t) with (begin now nm t). rewrite Hb. destruct (begin_end_time now nm t t' Hb) as [_ Hend].
      apply IH; [|exact (I_enter t now nm t' Ht Hb)|exact Hrest].
      unfold ended in *. now rewrite Hend.
    + cbv zeta.
      pose proof (I_leave t now Hnow He Ht) as Ht'.
      destruct (ended (fst (leave_process now t))) eqn:He'.
      * exists (fst (leave_process now t)), false.
        split; [reflexivity|]. split; [exact Ht'|]. discriminate.
      * exact (IH _ He' Ht' Hrest).
    + exact (IH t He Ht Hrest).
Qed.


End LoopInvariant.

(** How many clock readings the drain takes: one per open node, that is
    one more than the length of the active path. *)
Lemma drain_length (nows : list Z) (t : proc) :
  chain_wf t = true -> ended t = false ->
  (forall now, In now nows -> now <> -1) ->
  (List.length (active_idx t) < List.length nows)%nat ->
  exists t', drain nows t = Some t' /\ all_ended t' = true.
Proof.
  revert t. induction nows as [|now rest IH]; intros t Hwf He Hnows Hlen;
    [cbn in Hlen; lia|].
  cbn [drain]. unfold done. rewrite He.
  assert (Hnow : now <> -1) by exact (Hnows now (or_introl eq_refl)).
  destruct (leave_active_idx now t Hnow He) as [H1 H2].
  pose proof (end_chain_wf now t Hwf) as Hwf'.
  unfold leave_process.
  destruct (active_idx t) as [|i r] eqn:Ea.
  - destruct rest as [|x rest]; cbn [drain]; unfold done; rewrite (H1 eq_refl);
      (eexists; split; [reflexivity|]); exact (chain_wf_ended_all _ Hwf' (H1 eq_refl)).
  - destruct (H2 ltac:(discriminate)) as [He' Ea'].
    apply IH; [exact Hwf'|exact He'|intros x Hx; exact (Hnows x (or_intror Hx))|].
    rewrite Ea'. cbn [List.length] in Hlen.
    pose proof (length_removelast_cons (i :: r) ltac:(discriminate)) as Hl.
    cbn [List.length] in Hl. lia.
Qed.

Lemma drain_short (nows : list Z) (t : proc) :
  ended t = false ->
  (forall now, In now nows -> now <> -1) ->
  (List.length nows <= List.length (active_idx t))%nat ->
  drain nows t = None.
Proof.
  revert t. induction nows as [|now rest IH]; intros t He Hnows Hlen.
  - cbn [drain]. unfold done. now rewrite He.
  - cbn [drain]. unfold done. rewrite He.
    assert (Hnow : now <> -1) by exact (Hnows now (or_introl eq_refl)).
    destruct (leave_active_idx now t Hnow He) as [H1 H2].
    unfold leave_process.
    destruct (active_idx t) as [|i r] eqn:Ea; [cbn in Hlen; lia|].
    destruct (H2 ltac:(discriminate)) as [He' Ea'].
    apply IH; [exact He'|intros x Hx; exact (Hnows x (or_intror Hx))|].
    rewrite Ea'. cbn [List.length] in Hlen.
    pose proof (length_removelast_cons (i :: r) ltac:(discriminate)) as Hl.
    cbn [List.length] in Hl. lia.
Qed.

(* ------------------------------------------------------------------ *)
(** * The claims *)

(** C1: in every state reached from a fresh tree by [enter_process] /
    [leave_process], every node satisfies
    [total_time = personal_time + sum of total_time of its ended
    children] (running children contribute nothing). *)
Theorem span_total_time_invariant (t : proc) (Hr : reachable t)
  (q : list nat) (n : proc) (Hn : node_at t q = Some n) :
  total_time n = personal_time n + sum_Z (map ended_total (children n)).
Proof.
  apply time_inv_here. exact (time_inv_node_at t q n (reachable_time_inv t Hr) Hn).
Qed.

Lemma span_total_time_invariant_witness :
  exists n, node_at (state_after nested_ops) [0%nat] = Some n /\
    total_time n = personal_time n + sum_Z (map ended_total (children n)).
Proof.
  assert (Hr : reachable (state_after nested_ops)).
  { unfold reachable. apply (state_after_reach _ _ (state_after nested_ops)).
    vm_compute. reflexivity. }
  eexists. split; [vm_compute; reflexivity|].
  apply (span_total_time_invariant (state_after nested_ops) Hr [0%nat]).
  vm_compute. reflexivity.
Defined.

(** C2 (counterexample): a span the user entered as "ROOT" (stored as
    "root") and ended comes back from a save / load round trip with its
    [end_time] reset to the running sentinel. *)
Lemma user_root_span_reopened_on_load :
  let t := state_after user_root_ops in
  reach (fun _ => true) t /\
  option_map name (node_at t [0%nat]) = Some "root"%string /\
  option_map end_time (node_at t [0%nat]) = Some 2 /\
  option_map end_time (node_at (loadf (savef t)) [0%nat]) = Some (-1).
Proof.
  cbv zeta. split.
  - apply (state_after_reach _ _ (state_after user_root_ops)).
    vm_compute. reflexivity.
  - vm_compute. repeat split.
Qed.

(** C2 (amended): for every state reached by enter, leave and loads of
    saved snapshots whose names are all ASCII, a save / load round trip
    gives back the tree with every field of every node (children in
    order, parent links) except that every node named "root" is
    reopened; when no node below the top is named "root", only the
    top's [end_time] is reset. *)
Theorem snapshot_round_trip (t : proc) (Hr : reach (fun _ => true) t)
  (Ha : names_ascii t = true) :
  loadf (savef t) = reopen_named_root t /\
  (no_inner_root t = true -> loadf (savef t) = set_end_time t (-1)).
Proof.
  assert (Hrt : loadf (savef t) = reopen_named_root t)
    by exact (reload_parents_ok t (reach_parents_ok _ t Hr)).
  split; [exact Hrt|]. intros Hno.
  rewrite Hrt, (reopen_no_inner_root t Hno). unfold set_end_time.
  rewrite (reach_root_name _ t Hr). reflexivity.
Qed.

Lemma snapshot_round_trip_witness :
  loadf (savef (state_after nested_ops)) = reopen_named_root (state_after nested_ops) /\
  (no_inner_root (state_after nested_ops) = true ->
   loadf (savef (state_after nested_ops)) = set_end_time (state_after nested_ops) (-1)).
Proof.
  apply snapshot_round_trip; [|vm_compute; reflexivity].
  apply (state_after_reach _ _ (state_after nested_ops)).
  vm_compute. reflexivity.
Defined.

(** C3 (counterexample): after the session is drained (the root ended
    at 6), loading its snapshot reopens the root, and a further
    [leave_process] at 9 closes the root again, moving its [end_time] and
    adding to its times the 5 ticks since its last child ended. *)
Lemma drained_root_changes_again :
  let t := state_after finished_ops in
  reach (fun _ => true) t /\ ended t = true /\
  end_time t = 6 /\ personal_time t = 3 /\ total_time t = 6 /\
  end_time (loadf (savef t)) = -1 /\
  end_time (fst (leave_process 9 t)) = 9 /\
  personal_time (fst (leave_process 9 t)) = 8 /\
  total_time (fst (leave_process 9 t)) = 11.
Proof.
  cbv zeta. split.
  - apply (state_after_reach _ _ (state_after finished_ops)).
    vm_compute. reflexivity.
  - vm_compute. repeat split.
Qed.

(** C3 (amended): a node that has ended keeps its name, begin time,
    end time, personal time, total time and number of children under
    [enter_process], under [leave_process] while the root runs, and
    across a save / load round trip of a tree with ASCII names unless
    it is named "root". *)
Theorem ended_nodes_frozen (t : proc) (q : list nat) (n : proc)
  (Hn : node_at t q = Some n) (He : ended n = true) :
  (forall now nm t', enter_process now nm t = Some t' ->
     option_map fields (node_at t' q) = Some (fields n)) /\
  (forall now, ended t = false ->
     option_map fields (node_at (fst (leave_process now t)) q) = Some (fields n)) /\
  (forall m, reach m t -> names_ascii t = true -> name n <> "root"%string ->
     option_map fields (node_at (loadf (savef t)) q) = Some (fields n)).
Proof.
  split; [|split].
  - intros now nm t' Hb.
    destruct (begin_end_time now nm t t' Hb) as [Ht _].
    destruct (begin_frame now nm t t' Hb)
      as (n0 & n0' & H0 & _ & _ & _ & _ & _ & _ & _ & _ & Hrest).
    rewrite Hrest, Hn; [reflexivity| |].
    + intros Hq. assert (n0 = n) as <- by congruence.
      rewrite (active_prefix_open t (active_idx t) [] n0 Ht
                 (eq_sym (app_nil_r _)) H0) in He.
      discriminate.
    + intros Hq. rewrite Hq, (node_at_past_last t _ n0 H0) in Hn. discriminate.
  - intros now Ht. unfold leave_process. rewrite end_off_path, Hn; [reflexivity|].
    intros r Hr.
    rewrite (active_prefix_open t q r n Ht Hr Hn) in He. discriminate.
  - intros m Hr _ Hname.
    rewrite (reload_parents_ok t (reach_parents_ok m t Hr)), node_at_reopen, Hn.
    cbn [option_map]. rewrite fields_reopen by exact Hname. reflexivity.
Qed.

Lemma ended_nodes_frozen_witness :
  node_at (state_after drained_ops) [0%nat] = Some (mkProc "a" 1 4 3 3 [] true) /\
  ended (mkProc "a" 1 4 3 3 [] true) = true /\
  option_map fields (node_at (fst (leave_process 9 (state_after drained_ops))) [0%nat])
  = Some (fields (mkProc "a" 1 4 3 3 [] true)).
Proof.
  assert (Hn : node_at (state_after drained_ops) [0%nat]
               = Some (mkProc "a" 1 4 3 3 [] true)) by (vm_compute; reflexivity).
  split; [exact Hn|]. split; [reflexivity|].
  apply (ended_nodes_frozen (state_after drained_ops) [0%nat] _ Hn eq_refl).
  vm_compute. reflexivity.
Defined.

(** C4 (counterexample): enter "a" at 1, enter "b" at 5 never leaves
    more than it enters, yet the root's [total_time] (1) is below the
    sum of all [personal_time]s (1 + 4 + 0): the time of the running
    span "a" is not yet counted in the root. *)
Lemma open_spans_missing_from_root_total :
  let t := state_after open_ops in
  leaves_ok 0 open_ops = true /\ run_ops (fresh 0) open_ops = Some t /\
  total_time t = 1 /\ sum_personal t = 5 /\ total_time t < sum_personal t.
Proof. vm_compute. repeat split. Qed.

(** C4 (amended): in every state reached by [enter_process] /
    [leave_process] in which every child of the root has ended, the
    root's [total_time] equals the sum of [personal_time] over all
    nodes. *)
Theorem root_total_when_children_ended (t : proc) (Hr : reachable t)
  (Hc : forall c, In c (children t) -> ended c = true) :
  total_time t = sum_personal t.
Proof.
  pose proof (reachable_time_inv t Hr) as Hinv.
  pose proof (reachable_chain_wf t Hr) as Hwf.
  destruct t as [n b e pt tot cs par].
  apply time_inv_mk in Hinv as [Heq Hinv].
  apply chain_wf_mk in Hwf as (Hwf & _ & _).
  cbn [total_time sum_personal children] in *. rewrite Heq. f_equal. f_equal.
  apply map_ext_in. intros c Hin. unfold ended_total. rewrite (Hc c Hin).
  apply all_ended_total; [exact (Hinv c Hin)|].
  apply chain_wf_ended_all; [exact (Hwf c Hin)|exact (Hc c Hin)].
Qed.

Lemma root_total_when_children_ended_witness :
  (forall c, In c (children (state_after drained_ops)) -> ended c = true) /\
  total_time (state_after drained_ops) = sum_personal (state_after drained_ops).
Proof.
  assert (Hc : forall c, In c (children (state_after drained_ops)) -> ended c = true).
  { vm_compute. intros c [<-|[]]. reflexivity. }
  split; [exact Hc|].
  apply root_total_when_children_ended; [|exact Hc].
  unfold reachable. apply (state_after_reach _ _ (state_after drained_ops)).
  vm_compute. reflexivity.
Defined.

(** C5 (counterexample): a span the user named "root" is ended, then
    "x" is entered; loading the saved snapshot reopens the first span,
    so two siblings are open and the open nodes are no chain. *)
Lemma reload_leaves_two_open_siblings :
  let t := loadf (savef (state_after user_root_sibling_ops)) in
  reach (fun _ => true) t /\
  exists n0 n1, node_at t [0%nat] = Some n0 /\ node_at t [1%nat] = Some n1 /\
                ended n0 = false /\ ended n1 = false.
Proof.
  cbv zeta. split.
  - apply reach_load; [|reflexivity].
    apply (state_after_reach _ _ (state_after user_root_sibling_ops)).
    vm_compute. reflexivity.
  - vm_compute. eexists _, _. repeat split.
Qed.

(** C5 (amended): in every state reached by enter, leave and loads of
    snapshots saved while no span below the root is named "root",
    every open node lies on the active path [active_idx], the nodes of
    that path are each the running last child of the previous one, the
    last having no children or an ended last child, and when all names
    are ASCII [running_path] names the nodes of that path. *)
Theorem open_nodes_on_running_path (t : proc) (Hr : reach no_inner_root t) :
  (forall q n, node_at t q = Some n -> ended n = false ->
     exists r, active_idx t = q ++ r) /\
  (names_ascii t = true ->
   running_path t = String.concat "." (path_names t (active_idx t))) /\
  chain_along t (active_idx t).
Proof.
  split; [|split].
  - intros q n Hn Ho. apply (open_node_on_active_path t q n); [|exact Hn|exact Ho].
    apply (reach_chain_wf no_inner_root); [intros t0 H; exact H|exact Hr].
  - intros _. apply running_path_names.
  - apply chain_along_active.
Qed.

Lemma open_nodes_on_running_path_witness :
  no_inner_root (state_after nested_ops) = true /\
  running_path (loadf (savef (state_after nested_ops)))
  = String.concat "." (path_names (loadf (savef (state_after nested_ops)))
                         (active_idx (loadf (savef (state_after nested_ops))))).
Proof.
  assert (Hno : no_inner_root (state_after nested_ops) = true)
    by (vm_compute; reflexivity).
  split; [exact Hno|].
  assert (Hr : reach no_inner_root (loadf (savef (state_after nested_ops)))).
  { apply reach_load; [|exact Hno].
    apply (state_after_reach _ _ (state_after nested_ops)).
    vm_compute. reflexivity. }
  apply (proj1 (proj2 (open_nodes_on_running_path _ Hr))).
  vm_compute. reflexivity.
Defined.

(** C6: on a tree whose root runs, one [leave_process] at a clock
    reading [now >= 0] closes the open node at the end of the active
    path (and no other node's [end_time] moves), returns that node's
    name, adds its final [total_time] to its parent's [total_time] but
    not to the parent's [personal_time], and leaves the root running
    when the closed node is below it. *)
Theorem leave_closes_active_tail (now : Z) (t : proc)
  (Hopen : ended t = false) (Hnow : 0 <= now) :
  let q := active_idx t in
  let t' := fst (leave_process now t) in
  (exists n, node_at t q = Some n /\ ended n = false /\
             snd (leave_process now t) = name n) /\
  (exists n', node_at t' q = Some n' /\ end_time n' = now) /\
  (forall q', q' <> q ->
     option_map end_time (node_at t' q') = option_map end_time (node_at t q')) /\
  (forall qp i, q = qp ++ [i] ->
     exists pn pn' cn',
       node_at t qp = Some pn /\ node_at t' qp = Some pn' /\
       node_at t' q = Some cn' /\
       total_time pn' = total_time pn + total_time cn' /\
       personal_time pn' = personal_time pn) /\
  (q <> [] -> ended t' = false).
Proof.
  assert (Hnow' : now <> -1) by lia.
  destruct (end_frame now t Hnow') as ((n & Hn & Hnm) & Hclosed & Hrest & Hpar).
  cbv zeta. unfold leave_process.
  split; [|split; [exact Hclosed|split; [exact Hrest|split; [exact Hpar|]]]].
  - exists n. split; [exact Hn|]. split; [|exact Hnm].
    exact (active_prefix_open t (active_idx t) [] n Hopen
             (eq_sym (app_nil_r _)) Hn).
  - intros Hq. specialize (Hrest [] (not_eq_sym Hq)).
    cbn [node_at option_map] in Hrest. injection Hrest as Hend.
    unfold ended. rewrite Hend. exact Hopen.
Qed.

Lemma leave_closes_active_tail_witness :
  ended (state_after nested_ops) = false /\ 0 <= 9 /\
  (active_idx (state_after nested_ops) <> [] ->
   ended (fst (leave_process 9 (state_after nested_ops))) = false).
Proof.
  assert (Ho : ended (state_after nested_ops) = false) by (vm_compute; reflexivity).
  split; [exact Ho|]. split; [lia|].
  apply (leave_closes_active_tail 9 (state_after nested_ops) Ho). lia.
Defined.

(** C7: before [terminate] every query of the loop condition answers
    true, so [run] loops for as long as it is let; once [terminate]
    has armed the countdown the condition answers true once more and
    then false, so [run] performs exactly one more iteration and
    stops. *)
Theorem printer_one_more_flush :
  (forall k flushes, run k printer_init flushes = (printer_init, (flushes + k)%nat)) /\
  (forall c, fst (can_loop (terminate c)) = true /\
             fst (can_loop (snd (can_loop (terminate c)))) = false) /\
  (forall c fuel flushes, run (S (S fuel)) (terminate c) flushes = (0, S flushes)).
Proof.
  split; [exact run_infinite|]. split.
  - intros c. split; reflexivity.
  - intros c fuel flushes. reflexivity.
Qed.

(** C8: on a tree whose root runs, [enter_process] never fails: the
    routing of [begin] only descends into running children. *)
Theorem enter_never_fails_when_root_open (now : Z) (nm : string) (t : proc)
  (Hopen : ended t = false) :
  exists t', enter_process now nm t = Some t'.
Proof. exact (begin_total now nm t Hopen). Qed.

Lemma enter_never_fails_when_root_open_witness :
  ended (state_after nested_ops) = false /\
  exists t', enter_process 8 "c" (state_after nested_ops) = Some t'.
Proof.
  assert (Ho : ended (state_after nested_ops) = false) by (vm_compute; reflexivity).
  split; [exact Ho|]. exact (enter_never_fails_when_root_open 8 "c" _ Ho).
Defined.

(** C9: [time_str] gives the spec's four examples (durations in
    hundredths of a second), and for every non-negative duration it is
    the formatter that picks the smallest bracket and takes each unit
    by floor division and remainder from the largest one downward. *)
Theorem time_str_spec :
  time_str 4500 = "[45.00 s]"%string /\
  time_str 12500 = "[2 m, 5.00 s]"%string /\
  time_str 372500 = "[1 h, 2 m, 5.00 s]"%string /\
  time_str 9000500 = "[1 d, 1 h, 0 m, 5.00 s]"%string /\
  (forall cs, 0 <= cs -> time_str cs = format_spec cs).
Proof.
  split; [vm_compute; reflexivity|]. split; [vm_compute; reflexivity|].
  split; [vm_compute; reflexivity|]. split; [vm_compute; reflexivity|].
  exact time_str_format_spec.
Qed.

(** C10: on a tree whose root runs, one [enter_process] appends one new
    running node as the last child of the node at the end of the active
    path, adds the same gap to that node's [personal_time] and
    [total_time], and leaves every field of every other node as it
    was. *)
Theorem enter_appends_one_child (now : Z) (nm : string) (t t' : proc)
  (Hopen : ended t = false) (Hb : enter_process now nm t = Some t') :
  let q := active_idx t in
  exists n n',
    node_at t q = Some n /\ node_at t' q = Some n' /\
    children n' = children n ++ [Process nm true now] /\
    node_at t (q ++ [List.length (children n)]) = None /\
    node_at t' (q ++ [List.length (children n)]) = Some (Process nm true now) /\
    personal_time n' = personal_time n + (now - prev_marker n) /\
    total_time n' = total_time n + (now - prev_marker n) /\
    name n' = name n /\ begin_time n' = begin_time n /\
    end_time n' = end_time n /\ parent n' = parent n /\
    (forall q', q' <> q -> q' <> q ++ [List.length (children n)] ->
       option_map fields (node_at t' q') = option_map fields (node_at t q')).
Proof.
  destruct (begin_frame now nm t t' Hb)
    as (n & n' & H0 & H0' & Hch & Hpt & Htt & Hnm & Hbt & Het & Hpa & Hrest).
  cbv zeta. exists n, n'.
  split; [exact H0|]. split; [exact H0'|]. split; [exact Hch|].
  split; [exact (node_at_past_last t _ n H0)|].
  split.
  - rewrite node_at_app, H0'. cbn [node_at]. rewrite Hch, nth_error_snoc_len.
    reflexivity.
  - repeat (split; [assumption|]). exact Hrest.
Qed.

Lemma enter_appends_one_child_witness :
  ended (state_after nested_ops) = false /\
  node_at (state_after nested_ops) [0%nat; 1%nat] = None /\
  exists t', enter_process 8 "c" (state_after nested_ops) = Some t' /\
             node_at t' [0%nat; 1%nat] = Some (Process "c" true 8).
Proof.
  assert (Ho : ended (state_after nested_ops) = false) by (vm_compute; reflexivity).
  split; [exact Ho|]. split; [vm_compute; reflexivity|].
  set (t1 := match enter_process 8 "c" (state_after nested_ops) with
              | Some x => x
              | None => fresh 0
              end).
  assert (Hb : enter_process 8 "c" (state_after nested_ops) = Some t1)
    by (vm_compute; reflexivity).
  exists t1. split; [exact Hb|].
  destruct (enter_appends_one_child 8 "c" (state_after nested_ops) t1 Ho Hb)
    as (n & n' & H0 & _ & _ & _ & H4 & _).
  vm_compute in H0. injection H0 as Hn. subst n.
  replace (active_idx (state_after nested_ops) ++ _) with [0%nat; 1%nat] in H4
    by (vm_compute; reflexivity).
  exact H4.
Defined.

(* ------------------------------------------------------------------ *)
(** * Further properties of the code *)

(** X1: in every state reached by enter, leave and loads,
    [running_process] returns the node at the end of the active path;
    it is running when the root runs, it is the root itself once the
    root has ended, and its last child, if any, has ended. *)
Theorem running_process_stops_at_tail (m : proc -> bool) (t : proc)
  (Hr : reach m t) :
  node_at t (active_idx t) = Some (running_process t) /\
  ended (running_process t) = ended t /\
  (ended t = true -> running_process t = t) /\
  (forall init c, children (running_process t) = init ++ [c] -> ended c = true).
Proof.
  split; [exact (running_process_node_at t)|].
  assert (Hself : ended t = true -> running_process t = t)
    by exact (running_process_self t (ended_last_ended_reach m t Hr)).
  split; [|split; [exact Hself|exact (running_process_last_ended t)]].
  destruct (ended t) eqn:He.
  - rewrite (Hself eq_refl). exact He.
  - exact (running_process_open t He).
Qed.

Lemma running_process_stops_at_tail_witness :
  node_at (state_after nested_ops) (active_idx (state_after nested_ops))
    = Some (running_process (state_after nested_ops)) /\
  ended (running_process (state_after nested_ops)) = ended (state_after nested_ops).
Proof.
  assert (Hr : reachable (state_after nested_ops)).
  { unfold reachable. apply (state_after_reach _ _ (state_after nested_ops)).
    vm_compute. reflexivity. }
  destruct (running_process_stops_at_tail _ _ Hr) as (H1 & H2 & _).
  split; [exact H1|exact H2].
Defined.

(** X2: in every state reached by enter, leave and loads, the walk of
    [report_str] (descend to the first child, else move to the next
    sibling of the nearest ancestor that has one) visits every node once,
    in pre-order, each with its depth; when all names are ASCII the
    listing is one line per node in that order. *)
Theorem report_walk_preorder (m : proc -> bool) (t : proc) (Hr : reach m t) :
  report_visits t = preorder 0 t /\
  (names_ascii t = true ->
   report_listing t = String.concat ""%string (map report_line (preorder 0 t))).
Proof.
  assert (H := report_visits_preorder t (reach_parents_ok m t Hr)).
  split; [exact H|]. intros _. unfold report_listing. rewrite H. reflexivity.
Qed.

Lemma report_walk_preorder_witness :
  report_visits (state_after nested_ops) = preorder 0 (state_after nested_ops).
Proof.
  assert (Hr : reachable (state_after nested_ops)).
  { unfold reachable. apply (state_after_reach _ _ (state_after nested_ops)).
    vm_compute. reflexivity. }
  exact (proj1 (report_walk_preorder _ _ Hr)).
Defined.

(** X3: in every state reached by enter, leave and loads whose names
    are all ASCII, the table by name of [report_str] has one entry per
    name that occurs in the tree, sorted by name; the entry of a name holds the sum of the
    [personal_time]s, the sum of the [total_time]s and the number of
    the nodes of that name. *)
Theorem report_by_name_groups (m : proc -> bool) (t : proc) (Hr : reach m t)
  (Ha : names_ascii t = true) :
  (forall k, assoc k (report_by_name t) =
     match filter (fun n => String.eqb (name n) k) (nodes t) with
     | [] => None
     | ns => Some (sum_Z (map personal_time ns), sum_Z (map total_time ns),
                   List.length ns)
     end) /\
  NoDup (map fst (report_by_name t)) /\
  Sorted item_le (report_by_name t).
Proof.
  unfold report_by_name.
  assert (Hnd : NoDup (map fst (map summarize (report_avgs t)))).
  { rewrite keys_summarize. apply nodup_fold_avgs. constructor. }
  assert (Hp := sort_items_perm (map summarize (report_avgs t))).
  split; [|split; [|apply sort_items_sorted]].
  - intros k. rewrite <- (assoc_perm _ _ k (Permutation_sym Hp) Hnd).
    rewrite assoc_summarize. unfold report_avgs.
    rewrite assoc_fold_avgs. cbn [assoc].
    rewrite (report_visits_preorder t (reach_parents_ok m t Hr)).
    unfold nodes.
    destruct (filter _ (map snd (preorder 0 t))) as [|x l]; reflexivity.
  - exact (Permutation_NoDup (Permutation_map fst (Permutation_sym Hp)) Hnd).
Qed.

Lemma report_by_name_groups_witness :
  names_ascii (state_after nested_ops) = true /\
  assoc "a"%string (report_by_name (state_after nested_ops))
  = match filter (fun n => String.eqb (name n) "a") (nodes (state_after nested_ops)) with
    | [] => None
    | ns => Some (sum_Z (map personal_time ns), sum_Z (map total_time ns),
                  List.length ns)
    end.
Proof.
  assert (Hr : reachable (state_after nested_ops)).
  { unfold reachable. apply (state_after_reach _ _ (state_after nested_ops)).
    vm_compute. reflexivity. }
  assert (Ha : names_ascii (state_after nested_ops) = true) by (vm_compute; reflexivity).
  split; [exact Ha|]. exact (proj1 (report_by_name_groups _ _ Hr Ha) "a"%string).
Defined.

(** X4: in every state reached by enter and leave alone, or by enter,
    leave and loads with all names ASCII, every node's name is in lower
    case: [Process.__init__] lowers the name it is given and a load of
    ASCII names gives back the names that were saved. *)
Theorem names_stay_lower (m : proc -> bool) (t : proc) (Hr : reach m t)
  (Hd : names_ascii t = true \/ forall t0, m t0 = false) (q : list nat) (n : proc) (Hn : node_at t q = Some n) :
  lower (name n) = name n.
Proof. exact (names_lower_node_at t q n (reach_names_lower m t Hr) Hn). Qed.

Lemma names_stay_lower_witness :
  exists n, node_at (state_after nested_ops) [0%nat] = Some n /\
    lower (name n) = name n.
Proof.
  assert (Hr : reachable (state_after nested_ops)).
  { unfold reachable. apply (state_after_reach _ _ (state_after nested_ops)).
    vm_compute. reflexivity. }
  eexists. split; [vm_compute; reflexivity|].
  apply (names_stay_lower _ _ Hr (or_intror (fun _ => eq_refl)) [0%nat]).
  vm_compute. reflexivity.
Defined.

(** X5: on a tree whose root runs, [leave_process] at a clock reading
    other than -1 ends the root exactly when the root is the only open
    node (the active path is empty); otherwise the root keeps running
    and the active path loses its last step. *)
Theorem leave_pops_active_path (now : Z) (t : proc)
  (Hopen : ended t = false) (Hnow : now <> -1) :
  (active_idx t = [] -> ended (fst (leave_process now t)) = true) /\
  (active_idx t <> [] ->
     ended (fst (leave_process now t)) = false /\
     active_idx (fst (leave_process now t)) = removelast (active_idx t)).
Proof. exact (leave_active_idx now t Hnow Hopen). Qed.

Lemma leave_pops_active_path_witness :
  ended (state_after nested_ops) = false /\
  active_idx (state_after nested_ops) <> [] /\
  active_idx (fst (leave_process 8 (state_after nested_ops)))
    = removelast (active_idx (state_after nested_ops)).
Proof.
  assert (Ho : ended (state_after nested_ops) = false) by (vm_compute; reflexivity).
  assert (Hne : active_idx (state_after nested_ops) <> []) by (vm_compute; discriminate).
  split; [exact Ho|]. split; [exact Hne|].
  apply (proj2 (leave_pops_active_path 8 _ Ho ltac:(lia)) Hne).
Defined.

(** X6: in a state reached by enter, leave and loads of snapshots with
    no inner span named "root", with the root running, the closing loop
    [while not bench.done(): bench.leave_process()] needs one clock
    reading per open node, one more than the length of the active path:
    with more readings it ends every node, with no more it is not done. *)
Theorem drain_closes_every_node (t : proc) (Hr : reach no_inner_root t)
  (Hopen : ended t = false) (nows : list Z)
  (Hnows : forall now, In now nows -> now <> -1) :
  ((List.length (active_idx t) < List.length nows)%nat ->
     exists t', drain nows t = Some t' /\ all_ended t' = true) /\
  ((List.length nows <= List.length (active_idx t))%nat -> drain nows t = None).
Proof.
  assert (Hwf : chain_wf t = true) by (apply (reach_chain_wf no_inner_root); auto).
  split.
  - exact (drain_length nows t Hwf Hopen Hnows).
  - exact (drain_short nows t Hopen Hnows).
Qed.

Lemma drain_closes_every_node_witness :
  exists t', drain [8; 9; 10] (state_after nested_ops) = Some t' /\
             all_ended t' = true.
Proof.
  assert (Hr : reach no_inner_root (state_after nested_ops)).
  { apply (state_after_reach _ _ (state_after nested_ops)).
    vm_compute. reflexivity. }
  assert (Ho : ended (state_after nested_ops) = false) by (vm_compute; reflexivity).
  apply (proj1 (drain_closes_every_node _ Hr Ho [8; 9; 10]
                  ltac:(intros x [<-|[<-|[<-|[]]]]; lia))).
  vm_compute. lia.
Defined.

(** X7: the command loop of [main], started on a tree whose root runs
    (a fresh tree, or any state reached by enter, leave and loads) with
    ASCII names, raises no error on any sequence of ASCII lines:
    [enter_process] is only called while the root runs.  It stops with
    a state reached by the same calls, and if the lines run out while
    it is still engaged the root still runs. *)
Theorem session_never_fails (m : proc -> bool) (t : proc) (Hr : reach m t)
  (Hopen : ended t = false) (Ha : names_ascii t = true)
  (inputs : list (string * Z))
  (Hlines : forall raw now, In (raw, now) inputs -> is_ascii_str raw = true) :
  exists t' engaged, session inputs t = Some (t', engaged) /\ reach m t' /\
    (engaged = true -> ended t' = false).
Proof.
  apply (session_inv (reach m) (fun _ => True)).
  - intros t0 now nm t0' H0 Hb. exact (reach_enter m t0 now nm t0' H0 Hb).
  - intros t0 now _ _ H0. exact (reach_leave m t0 now H0).
  - exact Hopen.
  - exact Hr.
  - intros _ _ _. exact I.
Qed.

Lemma session_never_fails_witness :
  exists t' engaged,
    session [("B"%string, 8); ("<"%string, 9); ("huh"%string, 10)]
      (state_after nested_ops) = Some (t', engaged) /\
    reach (fun _ => false) t' /\ (engaged = true -> ended t' = false).
Proof.
  assert (Hr : reachable (state_after nested_ops)).
  { unfold reachable. apply (state_after_reach _ _ (state_after nested_ops)).
    vm_compute. reflexivity. }
  assert (Ho : ended (state_after nested_ops) = false) by (vm_compute; reflexivity).
  assert (Ha : names_ascii (state_after nested_ops) = true) by (vm_compute; reflexivity).
  apply (session_never_fails _ _ Hr Ho Ha).
  intros raw now H. repeat destruct H as [H|H]; try (injection H as <- _; reflexivity).
  destruct H.
Defined.

(** X8: a command loop started on a fresh tree, with clock readings
    other than -1, leaves every ended node with [total_time =
    end_time - begin_time], and every running node with [total_time]
    equal to the time from its [begin_time] to the last event it has
    accounted: the [begin_time] of its running last child, the
    [end_time] of its ended last child, or its own [begin_time]. *)
Theorem session_clock_accounting (now0 : Z) (inputs : list (string * Z))
  (t : proc) (engaged : bool)
  (Hs : session inputs (fresh now0) = Some (t, engaged))
  (Hnows : forall raw now, In (raw, now) inputs -> now <> -1)
  (q : list nat) (n : proc) (Hn : node_at t q = Some n) :
  (ended n = true -> total_time n = end_time n - begin_time n) /\
  (ended n = false -> total_time n = open_marker n - begin_time n).
Proof.
  destruct (session_inv (fun p => clock_inv p = true) (fun now => now <> -1)
              (fun t0 now nm t0' H0 Hb => begin_clock_inv now nm t0 t0' Hb H0)
              (fun t0 now Hnow He H0 => end_clock_inv now t0 Hnow He H0)
              inputs (fresh now0) eq_refl (clock_inv_Process _ _ _) Hnows)
    as (t' & e' & Hs' & Hc & _).
  rewrite Hs in Hs'. injection Hs' as <- _.
  pose proof (clock_inv_head n (clock_inv_node_at t q n Hc Hn)) as Hh.
  split; intros He; rewrite He in Hh; exact Hh.
Qed.

Lemma session_clock_accounting_witness :
  exists t engaged n,
    session [("a"%string, 1); ("b"%string, 5); ("<"%string, 7)] (fresh 0)
      = Some (t, engaged) /\
    node_at t [0%nat; 0%nat] = Some n /\
    (ended n = true -> total_time n = end_time n - begin_time n).
Proof.
  set (r := session [("a"%string, 1); ("b"%string, 5); ("<"%string, 7)] (fresh 0)).
  set (t := match r with Some (x, _) => x | None => fresh 0 end).
  set (n := match node_at t [0%nat; 0%nat] with Some x => x | None => fresh 0 end).
  assert (Hs : r = Some (t, true)) by (vm_compute; reflexivity).
  assert (Hn : node_at t [0%nat; 0%nat] = Some n) by (vm_compute; reflexivity).
  exists t, true, n. split; [exact Hs|]. split; [exact Hn|].
  assert (Hnows : forall raw now,
            In (raw, now) [("a"%string, 1); ("b"%string, 5); ("<"%string, 7)] ->
            now <> -1).
  { intros raw now H. repeat destruct H as [H|H]; try injection H as _ <-; try lia.
    destruct H. }
  exact (proj1 (session_clock_accounting 0 _ t true Hs Hnows _ n Hn)).
Defined.


